(** * FileSoftLink: a shallow embedding of plugins/filesoftlink/__init__.py

    The development models the directory-synchronisation engine of the
    plugin: configuration parsing ([init_plugin], directory part), the event
    handler, the full resynchronisation [sync_all], the single-file
    materialiser [__handle_file] and the deletion propagator
    [__handle_delete].

    Modelling choices, all following the Python code on a POSIX host
    ([SystemUtils.is_windows()] is false):
    - a [pathlib.PurePosixPath] is the list of its [parts] (anchor first for
      an absolute path), with the parsing, [str], [parent], [name],
      [suffix], [joinpath] and [relative_to] of Python 3.11's pathlib;
    - the file system is an association list from paths to entries (regular
      file with its bytes, directory, symbolic link with its target);
      calls that follow symbolic links ([exists], [is_file], [stat]) follow
      them with the kernel's bound of 40 hops;
    - Python exceptions are the constructors of [exn]; code runs in a
      state-and-exception monad whose state is the file system together with
      a trace of the global lock operations, of every file-system mutation
      (begin and end) and of the error reports sent to the user channel;
    - the external collaborators the module imports ([re.findall] with
      [re.IGNORECASE], [MediaType.ALL_VIDEO], [MediaType.ALL_SUBTITLE]) are
      fields of a record [Env]. *)

From Stdlib Require Import String Ascii List Bool ZArith Lia.
Import ListNotations.
Open Scope string_scope.
Open Scope Z_scope.
Open Scope list_scope.

(* ------------------------------------------------------------------ *)
(** ** Python strings *)

Module PyStr.

(** [s.split(c)] for a one-character separator: empty pieces are kept. *)
Fixpoint split_aux (c : ascii) (s : string) (cur : list ascii) : list string :=
  match s with
  | EmptyString => [string_of_list_ascii (List.rev cur)]
  | String x rest =>
      if Ascii.eqb x c
      then string_of_list_ascii (List.rev cur) :: split_aux c rest []
      else split_aux c rest (x :: cur)
  end.

Definition split (c : ascii) (s : string) : list string := split_aux c s [].

(** [a in b] for two strings: substring test. *)
Fixpoint contains (needle hay : string) : bool :=
  if String.prefix needle hay then true
  else match hay with
       | EmptyString => false
       | String _ rest => contains needle rest
       end.

(** [s.lower()] on ASCII text. *)
Definition lower_char (c : ascii) : ascii :=
  let n := nat_of_ascii c in
  if andb (Nat.leb 65 n) (Nat.leb n 90) then ascii_of_nat (n + 32) else c.

Fixpoint lower (s : string) : string :=
  match s with
  | EmptyString => EmptyString
  | String c rest => String (lower_char c) (lower rest)
  end.

(** [s.rfind(c)]: index of the last occurrence, [-1] when absent. *)
Fixpoint rfind_aux (c : ascii) (s : string) (i : Z) (best : Z) : Z :=
  match s with
  | EmptyString => best
  | String x rest => rfind_aux c rest (i + 1) (if Ascii.eqb x c then i else best)
  end.

Definition rfind (c : ascii) (s : string) : Z := rfind_aux c s 0 (-1).

Definition len (s : string) : Z := Z.of_nat (String.length s).

(** [s[i:]] for [0 <= i]. *)
Definition from (i : Z) (s : string) : string :=
  String.substring (Z.to_nat i) (String.length s - Z.to_nat i) s.

End PyStr.

Definition slash : ascii := "/"%char.
Definition dot : ascii := "."%char.
Definition colon : ascii := ":"%char.
Definition newline : ascii := ascii_of_nat 10.

(* ------------------------------------------------------------------ *)
(** ** pathlib.PurePosixPath *)

(** A path is its [parts] tuple: ["/"] (or ["//"]) first when absolute. *)
Definition Path := list string.

Definition is_anchor (x : string) : bool :=
  String.eqb x "/" || String.eqb x "//".

Definition is_absolute (p : Path) : bool :=
  match p with
  | x :: _ => is_anchor x
  | [] => false
  end.

(** [_parse_parts] of the POSIX flavour: the root is ["//"] for exactly two
    leading slashes, ["/"] for one or more than two; empty and ["."]
    components are dropped, [".."] is kept. *)
Definition posix_root (s : string) : option string :=
  if String.prefix "///" s then Some "/"
  else if String.prefix "//" s then Some "//"
  else if String.prefix "/" s then Some "/"
  else None.

Definition parse_path (s : string) : Path :=
  let comps := filter (fun x => negb (String.eqb x "" || String.eqb x "."))
                      (PyStr.split slash s) in
  match posix_root s with
  | Some r => r :: comps
  | None => comps
  end.

(** [str(path)]. *)
Definition path_str (p : Path) : string :=
  match p with
  | [] => "."
  | r :: rest => if is_anchor r then String.append r (String.concat "/" rest)
                 else String.concat "/" p
  end.

(** [path.parent]: an anchor alone and ['.'] are their own parent. *)
Definition parent (p : Path) : Path :=
  match p with
  | [] => []
  | [r] => if is_anchor r then [r] else []
  | _ => removelast p
  end.

(** [path.name]. *)
Definition name (p : Path) : string :=
  match List.rev p with
  | [] => ""
  | x :: _ => if is_anchor x then "" else x
  end.

(** [path.suffix]: [i = name.rfind('.')]; [name[i:]] when [0 < i < len(name) - 1]. *)
Definition suffix (p : Path) : string :=
  let n := name p in
  let i := PyStr.rfind dot n in
  if (0 <? i) && (i <? PyStr.len n - 1) then PyStr.from i n else "".

(** [base.joinpath(other)]: an absolute [other] replaces [base]. *)
Definition joinpath (base other : Path) : Path :=
  if is_absolute other then other else app base other.

Fixpoint strip_prefix (pre p : list string) : option (list string) :=
  match pre, p with
  | [], _ => Some p
  | x :: pre', y :: p' => if String.eqb x y then strip_prefix pre' p' else None
  | _ :: _, [] => None
  end.

(** [path.relative_to(other)] (Python 3.11): [None] is the [ValueError]. *)
Definition relative_to (p other : Path) : option Path :=
  match other with
  | [] => if is_absolute p then None else Some p
  | _ => strip_prefix other p
  end.

(** [path.is_relative_to(other)]. *)
Definition is_relative_to (p other : Path) : bool :=
  match relative_to p other with Some _ => true | None => false end.

Definition path_eq_dec : forall p q : Path, {p = q} + {p <> q} :=
  list_eq_dec string_dec.

Definition path_eqb (p q : Path) : bool :=
  if path_eq_dec p q then true else false.

(* ------------------------------------------------------------------ *)
(** ** The file system *)

Inductive entry :=
| EFile (data : list Byte.byte)
| EDir
| ELink (target : Path).

(** Entries in directory-listing order; the first binding of a path wins. *)
Definition FS := list (Path * entry).

Fixpoint lookup (fs : FS) (p : Path) : option entry :=
  match fs with
  | [] => None
  | (q, e) :: rest => if path_eqb q p then Some e else lookup rest p
  end.

Definition fs_remove (fs : FS) (p : Path) : FS :=
  filter (fun '(q, _) => negb (path_eqb q p)) fs.

Definition fs_set (fs : FS) (p : Path) (e : entry) : FS :=
  fs_remove fs p ++ [(p, e)].

(** Where a link at [p] with target [t] points: a relative target is read
    from the link's directory. *)
Definition link_dest (p t : Path) : Path := joinpath (parent p) t.

(** Linux follows at most 40 links before [ELOOP]. *)
Definition MAXSYMLINKS : nat := 40.

(** The final path reached by following links from [p]; [None] on a loop. *)
Fixpoint resolve_fuel (n : nat) (fs : FS) (p : Path) : option Path :=
  match lookup fs p with
  | Some (ELink t) =>
      match n with
      | O => None
      | S n' => resolve_fuel n' fs (link_dest p t)
      end
  | _ => Some p
  end.

Definition resolve (fs : FS) (p : Path) : option Path :=
  resolve_fuel MAXSYMLINKS fs p.

(** [os.stat(p)]: the entry reached by following links. *)
Definition stat (fs : FS) (p : Path) : option entry :=
  match resolve fs p with
  | Some q => lookup fs q
  | None => None
  end.

(** [Path.exists()], [Path.is_file()], [Path.is_dir()]: follow links and
    answer [False] on a dangling link or a loop. *)
Definition exists_ (fs : FS) (p : Path) : bool :=
  match stat fs p with Some _ => true | None => false end.

Definition is_file (fs : FS) (p : Path) : bool :=
  match stat fs p with Some (EFile _) => true | _ => false end.

Definition is_dir (fs : FS) (p : Path) : bool :=
  match stat fs p with Some EDir => true | _ => false end.

(** [st_size] of a directory on ext4. *)
Definition dir_st_size : Z := 4096.

(* ------------------------------------------------------------------ *)
(** ** Exceptions, trace, monad *)

Inductive exn :=
| AttributeError
| TypeError
| ValueError
| ReError
| FileExistsError
| FileNotFoundError
| IsADirectoryError
| NotADirectoryError
| SameFileError
| SchedulerNotRunningError
| RuntimeError.

(** The file-system mutations the plugin issues. *)
Inductive mop :=
| MkDir (p : Path)
| Unlink (p : Path)
| Symlink (src dst : Path)
| CopyFile (src dst : Path).

(** Observable actions: the global [lock], the begin and the end of every
    mutating system call, and [self.systemmessage.put] of an error. *)
Inductive act :=
| Acquire
| Release
| MutBegin (m : mop)
| MutEnd
| Report (e : exn).

Record State := mkState { st_fs : FS; st_trace : list act }.

Definition M (A : Type) := State -> State * (exn + A).

Definition ret {A} (a : A) : M A := fun s => (s, inr a).

Definition bind {A B} (m : M A) (k : A -> M B) : M B :=
  fun s => match m s with
           | (s', inl e) => (s', inl e)
           | (s', inr a) => k a s'
           end.

Notation "x <- m ;; k" := (bind m (fun x => k))
  (at level 61, m at next level, right associativity).
Notation "m ;;; k" := (bind m (fun _ => k))
  (at level 61, right associativity).

Definition raise {A} (e : exn) : M A := fun s => (s, inl e).

(** [try: m except Exception as e: h e]. *)
Definition try_except {A} (m : M A) (h : exn -> M A) : M A :=
  fun s => match m s with
           | (s', inl e) => h e s'
           | r => r
           end.

Definition get_fs : M FS := fun s => (s, inr (st_fs s)).

Definition put_fs (fs : FS) : M unit :=
  fun s => (mkState fs (st_trace s), inr tt).

Definition emit (a : act) : M unit :=
  fun s => (mkState (st_fs s) (st_trace s ++ [a]), inr tt).

Definition of_option {A} (e : exn) (o : option A) : M A :=
  match o with Some a => ret a | None => raise e end.

Fixpoint mapM {A B} (f : A -> M B) (l : list A) : M (list B) :=
  match l with
  | [] => ret []
  | x :: xs => y <- f x ;; ys <- mapM f xs ;; ret (y :: ys)
  end.

Fixpoint forM_ {A} (l : list A) (f : A -> M unit) : M unit :=
  match l with
  | [] => ret tt
  | x :: xs => f x ;;; forM_ xs f
  end.

(* ------------------------------------------------------------------ *)
(** ** System calls *)

(** A mutating system call: its begin and end are traced around the
    update, which either fails with an [OSError] or yields the new tree. *)
Definition syscall (m : mop) (f : FS -> exn + FS) : M unit :=
  emit (MutBegin m) ;;;
  fs <- get_fs ;;
  match f fs with
  | inl e => emit MutEnd ;;; raise e
  | inr fs' => put_fs fs' ;;; emit MutEnd
  end.

(** [os.mkdir(p)]. *)
Definition mkdir_f (p : Path) (fs : FS) : exn + FS :=
  match lookup fs p with
  | Some _ => inl FileExistsError
  | None =>
      match stat fs (parent p) with
      | Some EDir => inr (fs_set fs p EDir)
      | None => inl FileNotFoundError
      | Some _ => inl NotADirectoryError
      end
  end.

Definition os_mkdir (p : Path) : M unit := syscall (MkDir p) (mkdir_f p).

(** [Path.mkdir(parents, exist_ok)] of Python 3.11:
<<
        try:
            os.mkdir(self, mode)
        except FileNotFoundError:
            if not parents or self.parent == self:
                raise
            self.parent.mkdir(parents=True, exist_ok=True)
            self.mkdir(mode, parents=False, exist_ok=exist_ok)
        except OSError:
            if not exist_ok or not self.is_dir():
                raise
>>
    [fuel] bounds the recursion on the parent (the path's length suffices). *)
Fixpoint path_mkdir (fuel : nat) (p : Path) (parents exist_ok : bool) : M unit :=
  try_except (os_mkdir p) (fun e =>
    match e with
    | FileNotFoundError =>
        if negb parents || path_eqb (parent p) p then raise e
        else match fuel with
             | O => raise e
             | S f => path_mkdir f (parent p) true true ;;;
                      path_mkdir f p false exist_ok
             end
    | _ => fs <- get_fs ;;
           if negb exist_ok || negb (is_dir fs p) then raise e else ret tt
    end).

(** [Path.unlink()]: removes the entry itself, a link is not followed. *)
Definition unlink_f (p : Path) (fs : FS) : exn + FS :=
  match lookup fs p with
  | None => inl FileNotFoundError
  | Some EDir => inl IsADirectoryError
  | Some _ => inr (fs_remove fs p)
  end.

Definition unlink (p : Path) : M unit := syscall (Unlink p) (unlink_f p).

(** [os.symlink(src, dst)]: fails if anything, even a dangling link, is at [dst]. *)
Definition symlink_f (src dst : Path) (fs : FS) : exn + FS :=
  match lookup fs dst with
  | Some _ => inl FileExistsError
  | None =>
      match stat fs (parent dst) with
      | Some EDir => inr (fs_set fs dst (ELink src))
      | None => inl FileNotFoundError
      | Some _ => inl NotADirectoryError
      end
  end.

Definition os_symlink (src dst : Path) : M unit :=
  syscall (Symlink src dst) (symlink_f src dst).

(** [shutil.copyfile(src, dst)]: [_samefile] check, [open(src, 'rb')],
    [open(dst, 'wb')] (which follows a link at [dst] and creates its
    referent), then the bytes are written. *)
Definition copyfile_f (src dst : Path) (fs : FS) : exn + FS :=
  let same :=
    match resolve fs src, resolve fs dst with
    | Some a, Some b => exists_ fs src && exists_ fs dst && path_eqb a b
    | _, _ => false
    end in
  if same then inl SameFileError else
  match stat fs src with
  | None => inl FileNotFoundError
  | Some EDir => inl IsADirectoryError
  | Some (ELink _) => inl FileNotFoundError
  | Some (EFile d) =>
      match resolve fs dst with
      | None => inl FileNotFoundError
      | Some q =>
          match lookup fs q with
          | Some EDir => inl IsADirectoryError
          | _ =>
              match stat fs (parent q) with
              | Some EDir => inr (fs_set fs q (EFile d))
              | None => inl FileNotFoundError
              | Some _ => inl NotADirectoryError
              end
          end
      end
  end.

(** [shutil.copy(src, dst)]: into [dst / src.name] when [dst] is a directory. *)
Definition shutil_copy (src dst : Path) : M unit :=
  fs <- get_fs ;;
  let dst' := if is_dir fs dst then joinpath dst [name src] else dst in
  syscall (CopyFile src dst') (copyfile_f src dst').

(** [os.path.getsize(p)]. *)
Definition getsize (p : Path) : M Z :=
  fs <- get_fs ;;
  match stat fs p with
  | None => raise FileNotFoundError
  | Some (EFile d) => ret (Z.of_nat (length d))
  | Some EDir => ret dir_st_size
  | Some (ELink _) => ret 0
  end.

(* ------------------------------------------------------------------ *)
(** ** Python values that reach [__handle_file] *)

(** [__handle_file] is annotated [path: Path] but [event_handler] hands it
    the watchdog event's [str] path: both shapes are kept. *)
Inductive PyVal :=
| VStr (s : string)
| VPath (p : Path).

(** [os.fspath] followed by [Path(...)]. *)
Definition as_path (v : PyVal) : Path :=
  match v with VStr s => parse_path s | VPath p => p end.

(** [str(v)]. *)
Definition py_str (v : PyVal) : string :=
  match v with VStr s => s | VPath p => path_str p end.

(** [v.exists()]: a [str] has no such attribute. *)
Definition py_exists (v : PyVal) : M bool :=
  match v with
  | VStr _ => raise AttributeError
  | VPath p => fs <- get_fs ;; ret (exists_ fs p)
  end.

(** [v.relative_to(other)]. *)
Definition py_relative_to (v : PyVal) (other : string) : M Path :=
  match v with
  | VStr _ => raise AttributeError
  | VPath p => of_option ValueError (relative_to p (parse_path other))
  end.

(** [v.suffix]. *)
Definition py_suffix (v : PyVal) : M string :=
  match v with
  | VStr _ => raise AttributeError
  | VPath p => ret (suffix p)
  end.

(** [x in s] with [s] a [str]: [str.__contains__] accepts only a [str]
    operand and raises [TypeError] for a [Path]. *)
Definition py_in_str (x : PyVal) (s : string) : M bool :=
  match x with
  | VStr n => ret (PyStr.contains n s)
  | VPath _ => raise TypeError
  end.

(* ------------------------------------------------------------------ *)
(** ** The plugin *)

(** The collaborators the module imports. [re_findall pattern s] is
    [re.findall(pattern, s, re.IGNORECASE)], [None] when [re] raises;
    [str_lower s] is the built-in [s.lower()], Unicode case mapping
    included. *)
Record Env := mkEnv {
  re_findall : string -> string -> option (list string);
  ALL_VIDEO : list string;
  ALL_SUBTITLE : list string;
  str_lower : string -> string
}.

(** [self._dirconf: Dict[str, Optional[Path]]], in insertion order. *)
Definition DirConf := list (string * option Path).

(** The configuration the engine reads. *)
Record Plugin := mkPlugin {
  _copy_files : bool;
  _size : Z;
  _exclude_keywords : string;
  _dirconf : DirConf
}.

(** [d[k] = v]: an existing key keeps its position. *)
Fixpoint dict_set (d : DirConf) (k : string) (v : option Path) : DirConf :=
  match d with
  | [] => [(k, v)]
  | (k', v') :: rest =>
      if String.eqb k' k then (k, v) :: rest else (k', v') :: dict_set rest k v
  end.

(** [d.get(k)]: [None] for a missing key as for a key bound to [None]. *)
Fixpoint dict_get (d : DirConf) (k : string) : option Path :=
  match d with
  | [] => None
  | (k', v) :: rest => if String.eqb k' k then v else dict_get rest k
  end.

(** [[p for p in d.values() if p]]: a [Path] is always truthy. *)
Definition truthy_values (d : DirConf) : list Path :=
  flat_map (fun '(_, v) => match v with Some p => [p] | None => [] end) d.

Section Engine.

Variable env : Env.
Variable pl : Plugin.

(** Lines 284-290 of [__handle_file]:
<<
        if not path.exists():
            return
        if any([p in str(path) for p in self._dirconf.values() if p]):
            return
>>
    The guard: [Some true] skips, [Some false] goes on; this is the
    [isInsideAnyDestination] check of the spec. *)
Definition in_destination_guard (path : PyVal) : M bool :=
  hits <- mapM (fun p => py_in_str (VPath p) (py_str path)) (truthy_values (_dirconf pl)) ;;
  ret (existsb (fun b => b) hits).

(** Lines 292-310 of [__handle_file]: the materialisation itself. *)
Definition handle_file_body (path : PyVal) (mon_path : string)
    (target_path : option Path) : M unit :=
  relpath <- py_relative_to path mon_path ;;
  target_file <- match target_path with
                 | None => raise AttributeError
                 | Some t => ret (joinpath t relpath)
                 end ;;
  let target_dir := parent target_file in
  path_mkdir (length target_dir) target_dir true true ;;;
  fs <- get_fs ;;
  (if exists_ fs target_file then unlink target_file else ret tt) ;;;
  if _copy_files pl then
    sfx <- py_suffix path ;;
    if existsb (String.eqb (str_lower env sfx)) (ALL_VIDEO env ++ ALL_SUBTITLE env)
    then os_symlink (as_path path) target_file
    else shutil_copy (as_path path) target_file
  else os_symlink (as_path path) target_file.

(** [__handle_file(path, mon_path, target_path)]. *)
Definition handle_file (path : PyVal) (mon_path : string)
    (target_path : option Path) : M unit :=
  ex <- py_exists path ;;
  if negb ex then ret tt else
  skip <- in_destination_guard path ;;
  if skip then ret tt else
  handle_file_body path mon_path target_path.

(** [__handle_delete(path, mon_path)]. *)
Definition handle_delete (path : PyVal) (mon_path : string) : M unit :=
  relpath <- of_option ValueError
               (relative_to (as_path path) (parse_path mon_path)) ;;
  forM_ (map snd (_dirconf pl)) (fun v =>
    match v with
    | None => ret tt
    | Some target_dir =>
        let target_file := joinpath target_dir relpath in
        fs <- get_fs ;;
        if exists_ fs target_file then unlink target_file else ret tt
    end).

(** The [text] argument: "创建" (created), "移动" (moved), "删除" (deleted). *)
Inductive EvText := Created | Moved | Deleted.

Definition is_delete (t : EvText) : bool :=
  match t with Deleted => true | _ => false end.

(** The body of the [try] in [event_handler]. *)
Definition event_body (text : EvText) (mon_path event_path : string) : M unit :=
  fs <- get_fs ;;
  let p := parse_path event_path in
  if negb (exists_ fs p) && negb (is_delete text) then ret tt else
  too_big <- (if _size pl >? 0 then
                fs <- get_fs ;;
                if exists_ fs p then
                  sz <- getsize p ;; ret (sz >? _size pl * 1024 * 1024)
                else ret false
              else ret false) ;;
  if too_big then ret tt else
  excluded <- (if negb (String.eqb (_exclude_keywords pl) "") then
                 ms <- of_option ReError
                         (re_findall env (_exclude_keywords pl) event_path) ;;
                 ret (match ms with [] => false | _ => true end)
               else ret false) ;;
  if excluded then ret tt else
  if is_delete text then handle_delete (VStr event_path) mon_path
  else handle_file (VStr event_path) mon_path (dict_get (_dirconf pl) mon_path).

(** [event_handler]: [with lock:] around a [try]/[except Exception] that
    reports the error to the user channel. *)
Definition event_handler (text : EvText) (mon_path event_path : string) : M unit :=
  emit Acquire ;;;
  try_except (event_body text mon_path event_path)
             (fun e => emit (Report e)) ;;;
  emit Release.

(** [Path(root).rglob('*')]: every path strictly below [root], in the
    listing order of the tree when the walk starts; nothing when [root] is
    not a directory. *)
Definition rglob (fs : FS) (root : Path) : list Path :=
  if is_dir fs root then
    filter (fun q => match strip_prefix root q with
                     | Some (_ :: _) => true
                     | _ => false
                     end) (map fst fs)
  else [].

(** [sync_all]. *)
Definition sync_all : M unit :=
  forM_ (_dirconf pl) (fun '(mon_path, target_path) =>
    fs <- get_fs ;;
    forM_ (rglob fs (parse_path mon_path)) (fun path =>
      fs <- get_fs ;;
      if is_file fs path then handle_file (VPath path) mon_path target_path
      else ret tt)).

(** The engine's operations: a watchdog callback or a full resync. *)
Inductive Op :=
| OpEvent (text : EvText) (mon_path event_path : string)
| OpSync.

Definition run_op (o : Op) : M unit :=
  match o with
  | OpEvent t m e => event_handler t m e
  | OpSync => sync_all
  end.

Fixpoint run_ops (os : list Op) : M unit :=
  match os with
  | [] => ret tt
  | o :: rest => run_op o ;;; run_ops rest
  end.

End Engine.

(* ------------------------------------------------------------------ *)
(** ** Configuration: the directory part of [init_plugin] *)

(** One line of [monitor_dirs] (lines 115-159, POSIX branch): the mapping is
    stored, then, when watching is enabled, a [start_monitor] job for the
    source is scheduled unless the destination is inside the source.
    The state is the table and the list of scheduled jobs' sources. *)
Definition init_line (enabled : bool) (acc : DirConf * list string)
    (line : string) : DirConf * list string :=
  let '(dirconf, jobs) := acc in
  if String.eqb line "" then acc else
  let paths := PyStr.split colon line in
  let '(mon_path, target_path) :=
    match paths with
    | p0 :: p1 :: _ => (p0, Some (parse_path p1))
    | _ => (line, None)
    end in
  let dirconf := dict_set dirconf mon_path target_path in
  if enabled then
    match target_path with
    | Some t => if is_relative_to t (parse_path mon_path) then (dirconf, jobs)
                else (dirconf, jobs ++ [mon_path])
    | None => (dirconf, jobs ++ [mon_path])
    end
  else (dirconf, jobs).

(** [self._dirconf = {}], then the loop when [enabled or onlyonce]. *)
Definition init_dirconf (enabled onlyonce : bool) (monitor_dirs : string)
    : DirConf * list string :=
  if enabled || onlyonce then
    fold_left (init_line enabled) (PyStr.split newline monitor_dirs) ([], [])
  else ([], []).

(* ================================================================== *)
(** * Proofs *)

(** ** Relations preserved by a computation *)

Definition Preserves (R : State -> State -> Prop) {A} (m : M A) : Prop :=
  forall s, R s (fst (m s)).

Section Preservation.

Variable R : State -> State -> Prop.
Hypothesis R_refl : forall s, R s s.
Hypothesis R_trans : forall s1 s2 s3, R s1 s2 -> R s2 s3 -> R s1 s3.

Lemma pres_ret {A} (a : A) : Preserves R (ret a).
Proof. intro s. apply R_refl. Qed.

Lemma pres_raise {A} (e : exn) : Preserves R (@raise A e).
Proof. intro s. apply R_refl. Qed.

Lemma pres_get_fs : Preserves R get_fs.
Proof. intro s. apply R_refl. Qed.

Lemma pres_of_option {A} e (o : option A) : Preserves R (of_option e o).
Proof. destruct o; intro s; apply R_refl. Qed.

Lemma pres_bind {A B} (m : M A) (k : A -> M B) :
  Preserves R m -> (forall a, Preserves R (k a)) -> Preserves R (bind m k).
Proof.
  intros Hm Hk s. unfold bind. specialize (Hm s).
  destruct (m s) as [s' [e | a]] eqn:E; simpl in *; [assumption |].
  eapply R_trans; [exact Hm | apply Hk].
Qed.

Lemma pres_try {A} (m : M A) (h : exn -> M A) :
  Preserves R m -> (forall e, Preserves R (h e)) -> Preserves R (try_except m h).
Proof.
  intros Hm Hh s. unfold try_except. specialize (Hm s).
  destruct (m s) as [s' [e | a]] eqn:E; simpl in *; [| assumption].
  eapply R_trans; [exact Hm | apply Hh].
Qed.

Lemma pres_forM {A} (l : list A) (f : A -> M unit) :
  (forall x, In x l -> Preserves R (f x)) -> Preserves R (forM_ l f).
Proof.
  induction l as [| x xs IH]; intros Hf; simpl.
  - apply pres_ret.
  - apply pres_bind; [apply Hf; left; reflexivity | intros _].
    apply IH. intros y Hy. apply Hf. right. exact Hy.
Qed.

Lemma pres_mapM {A B} (l : list A) (f : A -> M B) :
  (forall x, Preserves R (f x)) -> Preserves R (mapM f l).
Proof.
  intros Hf. induction l as [| x xs IH]; simpl.
  - apply pres_ret.
  - apply pres_bind; [apply Hf | intro y].
    apply pres_bind; [exact IH | intro ys]. apply pres_ret.
Qed.

(** Every system call the plugin issues preserves [R]: then so does the
    recursive [Path.mkdir]. *)
Hypothesis R_syscall : forall m f, Preserves R (syscall m f).

Lemma pres_path_mkdir n p a b : Preserves R (path_mkdir n p a b).
Proof.
  revert p a b. induction n as [| n IH]; intros p a b; simpl;
    (apply pres_try; [apply R_syscall | intro e]);
    destruct e; try (destruct (negb a || path_eqb (parent p) p));
    try (apply pres_raise);
    try (apply pres_bind; [apply IH | intros _; apply IH]);
    (apply pres_bind; [apply pres_get_fs | intro fs]);
    destruct (_ || _); first [apply pres_raise | apply pres_ret].
Qed.

End Preservation.

Lemma pres_eq_refl (R : State -> State -> Prop) {A} (m : M A) :
  (forall s, R s s) -> Preserves eq m -> Preserves R m.
Proof. intros Hr Hm s. rewrite <- (Hm s). apply Hr. Qed.

Create HintDb pres.

(** Steps through a [Preserves] goal, following the syntax of the code:
    named operations are left for their own lemmas. *)
Ltac prs :=
  repeat (match goal with
    | |- Preserves _ (bind _ _) => eapply pres_bind; [ .. | intro ]
    | |- Preserves _ (try_except _ _) => eapply pres_try; [ .. | intro ]
    | |- Preserves _ (match (_, _) with _ => _ end) => cbv beta iota
    | |- Preserves _ (forM_ _ _) => eapply pres_forM; [ .. | intros ? ? ]
    | |- Preserves _ (mapM _ _) => eapply pres_mapM; [ .. | intro ]
    | |- Preserves _ (ret _) => eapply pres_ret
    | |- Preserves _ (raise _) => eapply pres_raise
    | |- Preserves _ get_fs => eapply pres_get_fs
    | |- Preserves _ (of_option _ _) => eapply pres_of_option
    | |- Preserves _ (if ?b then _ else _) => destruct b
    | |- Preserves _ (match ?x with _ => _ end) => destruct x
    end; try solve [auto with pres]).

(** ** [__handle_file] never changes anything *)

Lemma lookup_fs_remove fs p q :
  lookup (fs_remove fs p) q = if path_eqb p q then None else lookup fs q.
Proof.
  unfold fs_remove, path_eqb.
  induction fs as [| [r e] rest IH]; cbn [filter lookup].
  - destruct (path_eq_dec p q); reflexivity.
  - unfold path_eqb in *.
    destruct (path_eq_dec r p) as [Hrp | Hrp]; cbn [negb lookup]; rewrite ?IH;
      unfold path_eqb;
      repeat match goal with |- context [path_eq_dec ?a ?b] =>
               destruct (path_eq_dec a b) end; subst; congruence.
Qed.

Lemma truthy_values_In d mon t : In (mon, Some t) d -> truthy_values d <> [].
Proof.
  induction d as [| [k v] rest IH]; simpl; [tauto |].
  intros [H | H].
  - inversion H; subst. simpl. discriminate.
  - destruct v; simpl; [discriminate | auto].
Qed.

(** With a destination configured anywhere, the guard raises [TypeError]:
    [p in str(path)] receives a [Path] on its left. *)
Lemma guard_raises pl path x xs s :
  truthy_values (_dirconf pl) = x :: xs ->
  in_destination_guard pl path s = (s, inl TypeError).
Proof. intros H. unfold in_destination_guard. rewrite H. reflexivity. Qed.

(** With no destination configured, the guard answers [False]. *)
Lemma guard_false pl path s :
  truthy_values (_dirconf pl) = [] ->
  in_destination_guard pl path s = (s, inr false).
Proof. intros H. unfold in_destination_guard. rewrite H. reflexivity. Qed.

(** [__handle_file] leaves the state as it was whenever its [target_path]
    is [None] or some destination is configured (always the case for the
    calls the plugin makes). *)
Lemma handle_file_pure env pl path mon tgt :
  (forall t, tgt = Some t -> truthy_values (_dirconf pl) <> []) ->
  Preserves eq (handle_file env pl path mon tgt).
Proof.
  intros Ht s. unfold handle_file, bind.
  destruct path as [str | p]; [reflexivity |].
  simpl. destruct (exists_ (st_fs s) p); [| reflexivity]. simpl.
  destruct (truthy_values (_dirconf pl)) as [| x xs] eqn:E.
  - rewrite (guard_false _ _ _ E). unfold handle_file_body, bind.
    simpl. destruct (relative_to p (parse_path mon)); [| reflexivity]. simpl.
    destruct tgt as [t |]; [exfalso; exact (Ht t eq_refl eq_refl) | reflexivity].
  - rewrite (guard_raises _ _ _ _ _ E). reflexivity.
Qed.

Lemma st_eq_refl : forall s : State, s = s.
Proof. reflexivity. Qed.

Lemma st_eq_trans : forall s1 s2 s3 : State, s1 = s2 -> s2 = s3 -> s1 = s3.
Proof. congruence. Qed.

#[local] Hint Extern 1 => exact st_eq_refl : pres.
#[local] Hint Extern 1 => exact st_eq_trans : pres.

Lemma sync_all_pure env pl : Preserves eq (sync_all env pl).
Proof.
  unfold sync_all. eapply pres_forM; [try solve [auto with pres] .. | intros [mon tgt] Hin].
  prs.
  apply handle_file_pure. intros t ->. exact (truthy_values_In _ _ _ Hin).
Qed.

Lemma handle_file_str_pure env pl str mon tgt :
  Preserves eq (handle_file env pl (VStr str) mon tgt).
Proof. intro s. reflexivity. Qed.

(** ** The engine never creates an entry *)

(** [s'] has no entry at a path where [s] had none. *)
Definition shrink (s s' : State) : Prop :=
  forall q, lookup (st_fs s) q = None -> lookup (st_fs s') q = None.

Lemma shrink_refl : forall s, shrink s s.
Proof. intros s q H. exact H. Qed.

Lemma shrink_trans : forall s1 s2 s3, shrink s1 s2 -> shrink s2 s3 -> shrink s1 s3.
Proof. intros s1 s2 s3 H1 H2 q H. apply H2, H1, H. Qed.

#[local] Hint Extern 1 => exact shrink_refl : pres.
#[local] Hint Extern 1 => exact shrink_trans : pres.

Lemma emit_shrink a : Preserves shrink (emit a).
Proof. intros s q H. exact H. Qed.

Lemma unlink_shrink p : Preserves shrink (unlink p).
Proof.
  intros s q H. unfold unlink, syscall, unlink_f, bind, emit, get_fs, put_fs. simpl.
  destruct (lookup (st_fs s) p) as [[] |]; simpl; try exact H;
    rewrite lookup_fs_remove; destruct (path_eqb p q); first [reflexivity | exact H].
Qed.

Lemma getsize_shrink p : Preserves shrink (getsize p).
Proof. unfold getsize. prs. Qed.

#[local] Hint Resolve emit_shrink unlink_shrink getsize_shrink : pres.

Lemma handle_delete_shrink pl path mon : Preserves shrink (handle_delete pl path mon).
Proof. unfold handle_delete. prs. Qed.

#[local] Hint Resolve handle_delete_shrink : pres.

Lemma event_handler_shrink env pl t mon ev :
  Preserves shrink (event_handler env pl t mon ev).
Proof.
  unfold event_handler, event_body. prs.
Qed.

Lemma run_ops_shrink env pl ops : Preserves shrink (run_ops env pl ops).
Proof.
  induction ops as [| o rest IH]; simpl; prs.
  destruct o; simpl.
  - apply event_handler_shrink.
  - apply pres_eq_refl; [exact shrink_refl | apply sync_all_pure].
Qed.

(* ------------------------------------------------------------------ *)
(** ** Concrete inputs *)

(** [re.findall] for a pattern without metacharacters: a case-insensitive
    literal search. *)
Definition re_findall_literal (pattern s : string) : option (list string) :=
  if PyStr.contains (PyStr.lower pattern) (PyStr.lower s) then Some [pattern]
  else Some [].

(** The environment of the examples: their names are ASCII, where
    [PyStr.lower] is [str.lower]. *)
Definition demo_env : Env :=
  mkEnv re_findall_literal [".mkv"; ".mp4"] [".srt"; ".ass"] PyStr.lower.

Definition src_a : Path := parse_path "/src/a".
Definition movie : Path := parse_path "/src/a/movie.mkv".
Definition dst : Path := parse_path "/dst".

(** [/], [/src], [/src/a] and [/dst] as directories, with [files] under them. *)
Definition tree (files : FS) : FS :=
  [(parse_path "/", EDir); (parse_path "/src", EDir); (src_a, EDir);
   (dst, EDir)] ++ files.

Definition mirror (copy : bool) (size : Z) (exclude : string) : Plugin :=
  mkPlugin copy size exclude [("/src", Some dst)].

(* ------------------------------------------------------------------ *)
(** ** C1: exclude patterns *)

(** Claim C1. For a configured exclude pattern and a file path that
    [re.findall(pattern, path, re.IGNORECASE)] matches, no sequence of
    engine operations (watchdog events and full resyncs) ever creates an
    entry at the destination path of that file under any configured
    mapping [mon -> t]: the engine never creates any entry at all. *)
Theorem exclude_match_never_created env pl ops s mon t event_path rel hit hits :
  _exclude_keywords pl <> "" ->
  re_findall env (_exclude_keywords pl) event_path = Some (hit :: hits) ->
  In (mon, Some t) (_dirconf pl) ->
  relative_to (parse_path event_path) (parse_path mon) = Some rel ->
  lookup (st_fs s) (joinpath t rel) = None ->
  lookup (st_fs (fst (run_ops env pl ops s))) (joinpath t rel) = None.
Proof.
  intros _ _ _ _ Habs. exact (run_ops_shrink env pl ops s _ Habs).
Qed.

Lemma exclude_match_never_created_witness :
  lookup (st_fs (fst (run_ops demo_env (mirror false 0 "tmp")
            [OpEvent Created "/src" "/src/a/movie.mkv.tmp";
             OpEvent Moved "/src" "/src/a/movie.mkv.tmp"; OpSync]
            (mkState (tree [(parse_path "/src/a/movie.mkv.tmp", EFile [Byte.x01])]) []))))
    (parse_path "/dst/a/movie.mkv.tmp") = None.
Proof.
  apply (exclude_match_never_created demo_env (mirror false 0 "tmp") _ _
           "/src" dst "/src/a/movie.mkv.tmp" (parse_path "a/movie.mkv.tmp") "tmp" []).
  - discriminate.
  - reflexivity.
  - left. reflexivity.
  - reflexivity.
  - reflexivity.
Defined.

(* ------------------------------------------------------------------ *)
(** ** C2: the size threshold *)

Definition small_movie_tree : FS := tree [(movie, EFile [Byte.x00; Byte.x01])].

(** Claim C2 (failing input). With [max-size-mb = 1] and a two-byte file
    [/src/a/movie.mkv] (below the threshold), a created event does not
    materialise it: [event_handler] hands the [str] event path to
    [__handle_file], whose [path.exists()] raises [AttributeError]; the
    error is reported and the tree is unchanged. *)
Theorem below_threshold_event_not_materialized env :
  event_handler env (mirror false 1 "") Created "/src" "/src/a/movie.mkv"
    (mkState small_movie_tree [])
  = (mkState small_movie_tree [Acquire; Report AttributeError; Release], inr tt).
Proof. reflexivity. Qed.

(* ------------------------------------------------------------------ *)
(** ** C3: errors during the resync walk *)

Definition two_movies_tree : FS :=
  tree [(movie, EFile [Byte.x00]); (parse_path "/src/a/other.mkv", EFile [Byte.x01])].

(** Claim C3 (failing input). [sync_all] has no [try]: the [TypeError] of
    the first file's [__handle_file] leaves [sync_all] itself, so the walk
    stops there and nothing is reported. *)
Theorem sync_all_aborts_on_first_error env :
  sync_all env (mirror false 0 "") (mkState two_movies_tree [])
  = (mkState two_movies_tree [], inl TypeError).
Proof. reflexivity. Qed.

(* ------------------------------------------------------------------ *)
(** ** C4: deletion propagation *)

Definition movie_link : Path := parse_path "/dst/a/movie.mkv".

(** The mirror after [/src/a/movie.mkv] was linked and then deleted: the
    link at [/dst/a/movie.mkv] now dangles. *)
Definition dangling_tree : FS :=
  tree [(parse_path "/dst/a", EDir); (movie_link, ELink movie)].

(** Claim C4 (failing input). Deleting [/src/a/movie.mkv] leaves the
    dangling link [/dst/a/movie.mkv] in place: [target_file.exists()]
    follows the link and answers [False]. *)
Theorem delete_keeps_dangling_link env :
  let r := event_handler env (mirror false 0 "") Deleted "/src" "/src/a/movie.mkv"
             (mkState dangling_tree []) in
  lookup (st_fs (fst r)) movie_link = Some (ELink movie) /\
  r = (mkState dangling_tree [Acquire; Release], inr tt).
Proof. split; reflexivity. Qed.

(* ------------------------------------------------------------------ *)
(** ** C5: the destination-membership guard *)

(** Claim C5 (failing input). With the mapping [/src -> /dst], the guard
    on [Path("/src/a/movie.mkv")] raises [TypeError] instead of answering:
    [p in str(path)] has the [Path] [p] on its left. *)
Theorem guard_raises_type_error s :
  in_destination_guard (mirror false 0 "") (VPath movie) s = (s, inl TypeError).
Proof. reflexivity. Qed.

(* ------------------------------------------------------------------ *)
(** ** C9: materialising twice *)

(** Claim C9 (failing input). Two runs of [__handle_file] on the existing
    [/src/a/movie.mkv] under [/src -> /dst] both raise [TypeError] (the
    guard of C5) and leave no entry at [/dst/a/movie.mkv]. *)
Theorem handle_file_twice_raises env :
  let s0 := mkState small_movie_tree [] in
  let r1 := handle_file env (mirror false 0 "") (VPath movie) "/src" (Some dst) s0 in
  let r2 := handle_file env (mirror false 0 "") (VPath movie) "/src" (Some dst) (fst r1) in
  r1 = (s0, inl TypeError) /\ r2 = (s0, inl TypeError) /\
  lookup (st_fs (fst r2)) movie_link = None.
Proof. repeat split; reflexivity. Qed.

(* ------------------------------------------------------------------ *)
(** ** C10: a mapping without destination *)



(* ------------------------------------------------------------------ *)
(** ** C6: a destination inside its own source *)

Lemma split_nonempty_line c line p0 p1 rest :
  PyStr.split c line = p0 :: p1 :: rest -> String.eqb line "" = false.
Proof.
  intros H. destruct line; [discriminate | reflexivity].
Qed.

(** Claim C6 (as amended). A configuration line [source:destination] whose
    destination is equal to or lexically below its source
    ([Path.is_relative_to]) schedules no [start_monitor] job, whether or
    not watching is enabled; the mapping is still stored in the table. *)
Theorem nested_destination_no_job enabled dc jobs line p0 p1 rest :
  PyStr.split colon line = p0 :: p1 :: rest ->
  is_relative_to (parse_path p1) (parse_path p0) = true ->
  init_line enabled (dc, jobs) line = (dict_set dc p0 (Some (parse_path p1)), jobs).
Proof.
  intros Hsplit Hrel. unfold init_line.
  rewrite (split_nonempty_line _ _ _ _ _ Hsplit), Hsplit.
  destruct enabled; [rewrite Hrel |]; reflexivity.
Qed.

Lemma nested_destination_no_job_witness :
  init_line true ([], []) "/src:/src/dst"
  = ([("/src", Some (parse_path "/src/dst"))], []).
Proof.
  apply (nested_destination_no_job true [] [] "/src:/src/dst" "/src" "/src/dst" []);
    reflexivity.
Defined.

(** Claim C6 (counterexample). With watching enabled, the lines
    ["/src:/dst"] and ["/src:/src/mirror"] schedule a watch on [/src]
    (from the first line) while the table maps [/src] to [/src/mirror], a
    destination inside its source: a nested mapping is stored and its
    source is watched. *)
Lemma nested_destination_watched :
  ~ (forall enabled onlyonce monitor_dirs mon t,
       In (mon, Some t) (fst (init_dirconf enabled onlyonce monitor_dirs)) ->
       is_relative_to t (parse_path mon) = true ->
       ~ In mon (snd (init_dirconf enabled onlyonce monitor_dirs))).
Proof.
  intros H.
  apply (H true false "/src:/dst
/src:/src/mirror" "/src" (parse_path "/src/mirror")).
  - vm_compute. left. reflexivity.
  - reflexivity.
  - vm_compute. left. reflexivity.
Qed.

(* ------------------------------------------------------------------ *)
(** ** Link resolution under an update *)

Lemma lookup_app_single fs p e q :
  lookup (fs ++ [(p, e)]) q =
  match lookup fs q with
  | Some x => Some x
  | None => if path_eqb p q then Some e else None
  end.
Proof.
  induction fs as [| [r x] rest IH]; simpl; [reflexivity |].
  destruct (path_eqb r q); [reflexivity | exact IH].
Qed.

Lemma lookup_fs_set fs p e q :
  lookup (fs_set fs p e) q = if path_eqb p q then Some e else lookup fs q.
Proof.
  unfold fs_set. rewrite lookup_app_single, lookup_fs_remove.
  destruct (path_eqb p q); [reflexivity |].
  destruct (lookup fs q); reflexivity.
Qed.

Lemma path_eqb_refl p : path_eqb p p = true.
Proof. unfold path_eqb. destruct (path_eq_dec p p); congruence. Qed.

Lemma path_eqb_neq p q : p <> q -> path_eqb p q = false.
Proof. unfold path_eqb. destruct (path_eq_dec p q); congruence. Qed.

(** Resolution stops on an entry that is not a link. *)
Lemma resolve_end n fs p q :
  resolve_fuel n fs p = Some q -> forall t, lookup fs q <> Some (ELink t).
Proof.
  revert p. induction n as [| n IH]; intros p H t; simpl in H;
    destruct (lookup fs p) as [[d | | t'] |] eqn:E; try discriminate;
    try (injection H as <-; congruence).
  exact (IH _ H t).
Qed.

(** Writing a non-link at the end of a resolution keeps that resolution. *)
Lemma resolve_set_end n fs p q e :
  resolve_fuel n fs p = Some q -> (forall t, e <> ELink t) ->
  resolve_fuel n (fs_set fs q e) p = Some q.
Proof.
  revert p. induction n as [| n IH]; intros p H He; simpl in *;
    rewrite lookup_fs_set;
    (destruct (path_eq_dec q p) as [-> | Hqp];
     [rewrite path_eqb_refl; destruct e; try reflexivity; exfalso; eapply He; reflexivity
     | rewrite (path_eqb_neq _ _ Hqp)]);
    destruct (lookup fs p) as [[d | | t'] |]; try discriminate;
    try (injection H as ->; congruence).
  exact (IH _ H He).
Qed.

(** A resolution that does not end at [q] does not go through [q] when [q]
    holds no link: writing at [q] keeps it. *)
Lemma resolve_set_other n fs p r q e :
  resolve_fuel n fs p = Some r -> r <> q ->
  (forall t, lookup fs q <> Some (ELink t)) ->
  resolve_fuel n (fs_set fs q e) p = Some r.
Proof.
  revert p. induction n as [| n IH]; intros p H Hrq Hq; simpl in *;
    rewrite lookup_fs_set;
    (destruct (path_eq_dec q p) as [-> | Hqp];
     [ exfalso; destruct (lookup fs p) as [[d | | t'] |] eqn:E;
       try discriminate; try (injection H as ->; congruence);
       first [exact (Hq t' E) | exact (Hq t' eq_refl)]
     | rewrite (path_eqb_neq _ _ Hqp)]);
    destruct (lookup fs p) as [[d | | t'] |]; try discriminate; try exact H.
  exact (IH _ H Hrq Hq).
Qed.

(** ** Running the monad step by step *)

Lemma bind_ok {A B} (m : M A) (k : A -> M B) s s' b :
  bind m k s = (s', inr b) ->
  exists s1 a, m s = (s1, inr a) /\ k a s1 = (s', inr b).
Proof.
  unfold bind. destruct (m s) as [s1 [e | a]]; [discriminate |]. eauto.
Qed.

Lemma syscall_ok m f s s' :
  syscall m f s = (s', inr tt) -> exists fs', f (st_fs s) = inr fs' /\ st_fs s' = fs'.
Proof.
  unfold syscall, bind, emit, get_fs, put_fs, raise. simpl.
  destruct (f (st_fs s)) as [e | fs'] eqn:E; simpl; [discriminate |].
  intros H. injection H as <-. eauto.
Qed.

(* ------------------------------------------------------------------ *)
(** ** C8: link or copy *)

(** The system calls that create an entry at their destination. *)
Definition creates (a : act) : bool :=
  match a with
  | MutBegin (Symlink _ _) | MutBegin (CopyFile _ _) => true
  | _ => false
  end.

(** The trace grows by actions none of which creates an entry. *)
Definition no_create_ext (s s' : State) : Prop :=
  exists mid, st_trace s' = st_trace s ++ mid /\
              Forall (fun a => creates a = false) mid.

Lemma no_create_ext_refl s : no_create_ext s s.
Proof. exists []. rewrite app_nil_r. split; [reflexivity | constructor]. Qed.

Lemma no_create_ext_trans s1 s2 s3 :
  no_create_ext s1 s2 -> no_create_ext s2 s3 -> no_create_ext s1 s3.
Proof.
  intros (m1 & H1 & F1) (m2 & H2 & F2). exists (m1 ++ m2).
  rewrite H2, H1, app_assoc. split; [reflexivity | apply Forall_app; auto].
Qed.

Lemma syscall_done_trace m f s s' :
  syscall m f s = (s', inr tt) -> st_trace s' = st_trace s ++ [MutBegin m; MutEnd].
Proof.
  unfold syscall, bind, emit, get_fs, put_fs, raise. simpl.
  destruct (f _); simpl; [discriminate |].
  intros H. injection H as <-. simpl. rewrite <- app_assoc. reflexivity.
Qed.

Lemma no_create_mkdir_call p f : Preserves no_create_ext (syscall (MkDir p) f).
Proof.
  intro s. exists [MutBegin (MkDir p); MutEnd].
  split; [| repeat constructor].
  unfold syscall, bind, emit, get_fs, put_fs, raise. simpl.
  destruct (f _); simpl; rewrite <- app_assoc; reflexivity.
Qed.

(** [Path.mkdir] only issues [os.mkdir]. *)
Lemma no_create_path_mkdir n p a b : Preserves no_create_ext (path_mkdir n p a b).
Proof.
  pose proof no_create_ext_refl as R_refl.
  pose proof no_create_ext_trans as R_trans.
  revert p a b. induction n as [| n IH]; intros p a b; simpl;
    (apply pres_try; [exact R_trans | apply no_create_mkdir_call | intro e]);
    destruct e; try (destruct (negb a || path_eqb (parent p) p));
    try (apply pres_raise; exact R_refl);
    try (apply pres_bind; [exact R_trans | apply IH | intros _; apply IH]);
    (apply pres_bind; [exact R_trans | apply pres_get_fs; exact R_refl | intro fs]);
    destruct (_ || _); first [apply pres_raise | apply pres_ret]; exact R_refl.
Qed.

Lemma stat_after_unlink fs p :
  (exists x, lookup fs p = Some x /\ x <> EDir) ->
  stat (fs_remove fs p) p = None.
Proof.
  intros _. unfold stat, resolve. simpl.
  rewrite lookup_fs_remove, path_eqb_refl. simpl.
  rewrite lookup_fs_remove, path_eqb_refl. reflexivity.
Qed.

(** Claim C8. When the materialisation step of [__handle_file] (lines
    292-310, reached once the guards let the file through) succeeds on a
    source [path] below [mon] with destination [t], the one system call of
    the run that creates an entry is its last one, and it is
    [os.symlink(path, target)] when copy mode is off or
    [path.suffix.lower()] is one of the video or subtitle extensions, and
    [shutil.copy(path, target)] otherwise (the calls before it only make
    directories or remove the stale target). After the link, the target
    path holds a symbolic link to [path]; after the copy, the target path
    reads as a regular file with the source's bytes. *)
Theorem materialize_link_or_copy env pl path mon t rel s s' :
  relative_to path (parse_path mon) = Some rel ->
  handle_file_body env pl (VPath path) mon (Some t) s = (s', inr tt) ->
  exists pre, Forall (fun a => creates a = false) pre /\
  if negb (_copy_files pl) ||
     existsb (String.eqb (str_lower env (suffix path))) (ALL_VIDEO env ++ ALL_SUBTITLE env)
  then st_trace s' = st_trace s ++ pre ++
                     [MutBegin (Symlink path (joinpath t rel)); MutEnd] /\
       lookup (st_fs s') (joinpath t rel) = Some (ELink path)
  else st_trace s' = st_trace s ++ pre ++
                     [MutBegin (CopyFile path (joinpath t rel)); MutEnd] /\
       exists d, stat (st_fs s') (joinpath t rel) = Some (EFile d) /\
                 stat (st_fs s') path = Some (EFile d).
Proof.
  intros Hrel H. unfold handle_file_body in H.
  apply bind_ok in H as (s1 & r1 & H1 & H).
  cbn in H1. rewrite Hrel in H1. injection H1 as <- <-.
  apply bind_ok in H as (s2 & tf & H2 & H). cbn in H2. injection H2 as <- <-.
  apply bind_ok in H as (s3 & [] & H3 & H).
  assert (N3 : no_create_ext s s3).
  { pose proof (no_create_path_mkdir (length (parent (joinpath t rel)))
                  (parent (joinpath t rel)) true true s) as P.
    rewrite H3 in P. exact P. }
  apply bind_ok in H as (s4 & fs4 & H4 & H). cbn in H4. injection H4 as <- <-.
  apply bind_ok in H as (s5 & [] & H5 & H).
  set (tf := joinpath t rel) in *.
  assert (N5 : no_create_ext s s5).
  { apply (no_create_ext_trans _ _ _ N3).
    destruct (exists_ (st_fs s3) tf).
    - apply syscall_done_trace in H5. exists [MutBegin (Unlink tf); MutEnd].
      split; [exact H5 | repeat constructor].
    - injection H5 as <-. apply no_create_ext_refl. }
  assert (Hgone : stat (st_fs s5) tf = None).
  { destruct (exists_ (st_fs s3) tf) eqn:Eex.
    - apply syscall_ok in H5 as (fs' & Hf & ->). unfold unlink_f in Hf.
      destruct (lookup (st_fs s3) tf) as [[d | | l] |] eqn:El; try discriminate;
        injection Hf as <-; apply stat_after_unlink; eexists; split; eauto; discriminate.
    - injection H5 as <-. unfold exists_ in Eex.
      destruct (stat (st_fs s3) tf); [discriminate | reflexivity]. }
  destruct N5 as (pre & Hpre & Fpre). exists pre. split; [exact Fpre |].
  assert (Hlink : os_symlink path tf s5 = (s', inr tt) ->
                  st_trace s' = st_trace s ++ pre ++ [MutBegin (Symlink path tf); MutEnd] /\
                  lookup (st_fs s') tf = Some (ELink path)).
  { intros Hs. split.
    - rewrite (syscall_done_trace _ _ _ _ Hs), Hpre, <- app_assoc. reflexivity.
    - apply syscall_ok in Hs as (fs' & Hf & ->). unfold symlink_f in Hf.
      destruct (lookup (st_fs s5) tf); [discriminate |].
      destruct (stat (st_fs s5) (parent tf)) as [[] |]; try discriminate.
      injection Hf as <-. rewrite lookup_fs_set, path_eqb_refl. reflexivity. }
  destruct (_copy_files pl); simpl; [| exact (Hlink H)].
  apply bind_ok in H as (s6 & sfx & H6 & H). injection H6 as <- <-.
  destruct (existsb _ _); [exact (Hlink H) |].
  unfold shutil_copy in H.
  apply bind_ok in H as (s6 & fs6 & H6 & H). injection H6 as <- <-.
  unfold is_dir in H. rewrite Hgone in H. cbv beta iota in H.
  split; [rewrite (syscall_done_trace _ _ _ _ H), Hpre, <- app_assoc; reflexivity |].
  apply syscall_ok in H as (fs' & Hf & ->). unfold copyfile_f in Hf.
  set (fs := st_fs s5) in *. cbn [as_path] in Hf.
  unfold stat in Hgone.
  destruct (resolve fs tf) as [q |] eqn:Eq;
    [| exfalso; repeat match type of Hf with
                       | context [match ?x with _ => _ end] => destruct x
                       end; discriminate].
  assert (Hex_tf : exists_ fs tf = false)
    by (unfold exists_, stat; rewrite Eq, Hgone; reflexivity).
  rewrite Hex_tf in Hf.
  destruct (stat fs path) as [[d | | l] |] eqn:Es;
    destruct (resolve fs path) as [r |] eqn:Er;
    rewrite ?andb_false_r in Hf; simpl in Hf; try discriminate.
  rewrite Hgone in Hf.
  destruct (stat fs (parent q)) as [[] |]; try discriminate.
  all: unfold stat in Es; rewrite Er in Es; try discriminate.
  injection Hf as <-. exists d. unfold stat, resolve.
  rewrite (resolve_set_end _ _ _ _ _ Eq); [| intros ? ?; discriminate].
  rewrite lookup_fs_set, path_eqb_refl. split; [reflexivity |].
  assert (Hrq : r <> q) by (intros ->; congruence).
  rewrite (resolve_set_other _ _ _ _ _ _ Er Hrq); [| intros ? ; rewrite Hgone; discriminate].
  rewrite lookup_fs_set, path_eqb_neq by congruence. exact Es.
Qed.

(* ------------------------------------------------------------------ *)
(** ** Everything below [event_handler] only issues system calls *)

Section SyscallsOnly.

Variable R : State -> State -> Prop.
Hypothesis R_refl : forall s, R s s.
Hypothesis R_trans : forall s1 s2 s3, R s1 s2 -> R s2 s3 -> R s1 s3.
Hypothesis R_syscall : forall m f, Preserves R (syscall m f).

#[local] Hint Extern 1 => exact R_refl : pres.
#[local] Hint Extern 1 => exact R_trans : pres.

Lemma sys_unlink p : Preserves R (unlink p).
Proof. apply R_syscall. Qed.

Lemma sys_symlink a b : Preserves R (os_symlink a b).
Proof. apply R_syscall. Qed.

Lemma sys_copy a b : Preserves R (shutil_copy a b).
Proof. unfold shutil_copy. prs. Qed.

Lemma sys_mkdir n p a b : Preserves R (path_mkdir n p a b).
Proof. apply pres_path_mkdir; assumption. Qed.

Lemma sys_getsize p : Preserves R (getsize p).
Proof. unfold getsize. prs. Qed.

Lemma sys_py_exists v : Preserves R (py_exists v).
Proof. unfold py_exists. prs. Qed.

Lemma sys_py_relative_to v o : Preserves R (py_relative_to v o).
Proof. unfold py_relative_to. prs. Qed.

Lemma sys_py_suffix v : Preserves R (py_suffix v).
Proof. unfold py_suffix. prs. Qed.

Lemma sys_py_in_str v o : Preserves R (py_in_str v o).
Proof. unfold py_in_str. prs. Qed.

#[local] Hint Resolve sys_unlink sys_symlink sys_copy sys_mkdir sys_getsize
  sys_py_exists sys_py_relative_to sys_py_suffix sys_py_in_str : pres.

Lemma sys_guard pl v : Preserves R (in_destination_guard pl v).
Proof. unfold in_destination_guard. prs. Qed.

Lemma sys_handle_file_body env pl v mon t : Preserves R (handle_file_body env pl v mon t).
Proof. unfold handle_file_body. prs. Qed.

#[local] Hint Resolve sys_guard sys_handle_file_body : pres.

Lemma sys_handle_file env pl v mon t : Preserves R (handle_file env pl v mon t).
Proof. unfold handle_file. prs. Qed.

Lemma sys_handle_delete pl v mon : Preserves R (handle_delete pl v mon).
Proof. unfold handle_delete. prs. Qed.

#[local] Hint Resolve sys_handle_file sys_handle_delete : pres.

Lemma sys_event_body env pl t mon ev : Preserves R (event_body env pl t mon ev).
Proof. unfold event_body. prs. Qed.

End SyscallsOnly.

(* ------------------------------------------------------------------ *)
(** ** C7: the global lock *)

(** What happens between [Acquire] and [Release]: whole mutating calls
    (begin immediately followed by end) and error reports. *)
Inductive blocks : list act -> Prop :=
| blocks_nil : blocks []
| blocks_mut m rest : blocks rest -> blocks (MutBegin m :: MutEnd :: rest)
| blocks_report e rest : blocks rest -> blocks (Report e :: rest).

#[local] Hint Constructors blocks : core.

Lemma blocks_app a b : blocks a -> blocks b -> blocks (a ++ b).
Proof. induction 1; simpl; auto. Qed.

(** [s'] extends the trace of [s] by blocks only. *)
Definition tr (s s' : State) : Prop :=
  exists mid, st_trace s' = st_trace s ++ mid /\ blocks mid.

Lemma tr_refl : forall s, tr s s.
Proof. intro s. exists []. rewrite app_nil_r. auto. Qed.

Lemma tr_trans : forall s1 s2 s3, tr s1 s2 -> tr s2 s3 -> tr s1 s3.
Proof.
  intros s1 s2 s3 [m1 [E1 B1]] [m2 [E2 B2]]. exists (m1 ++ m2).
  rewrite E2, E1, app_assoc. auto using blocks_app.
Qed.

Lemma syscall_trace m f s :
  st_trace (fst (syscall m f s)) = st_trace s ++ [MutBegin m; MutEnd].
Proof.
  unfold syscall, bind, emit, get_fs, put_fs, raise. simpl.
  destruct (f (st_fs s)); simpl; rewrite <- app_assoc; reflexivity.
Qed.

Lemma tr_syscall : forall m f, Preserves tr (syscall m f).
Proof. intros m f s. exists [MutBegin m; MutEnd]. rewrite syscall_trace. auto. Qed.

(** [with lock:] brackets the handler: its trace is [Acquire], blocks,
    [Release], and it always returns normally. *)
Lemma event_handler_trace env pl t mon ev s :
  exists mid,
    st_trace (fst (event_handler env pl t mon ev s)) =
      st_trace s ++ Acquire :: mid ++ [Release] /\
    blocks mid /\ snd (event_handler env pl t mon ev s) = inr tt.
Proof.
  set (s1 := mkState (st_fs s) (st_trace s ++ [Acquire])).
  pose proof (sys_event_body tr tr_refl tr_trans tr_syscall env pl t mon ev s1) as Hb.
  unfold event_handler, bind, try_except. fold (emit Acquire s).
  change (emit Acquire s) with (s1, @inr exn unit tt). simpl.
  destruct (event_body env pl t mon ev s1) as [s2 [e | []]]; simpl in *;
    destruct Hb as [mid [E B]]; simpl in E.
  - exists (mid ++ [Report e]). rewrite E. simpl.
    repeat rewrite <- app_assoc. simpl. split; [reflexivity |].
    split; [apply blocks_app; auto | reflexivity].
  - exists mid. rewrite E. repeat rewrite <- app_assoc. simpl. auto.
Qed.

(** The actions one engine operation performs when it starts in [s]. *)
Definition op_actions env pl (o : Op) (s : State) : list act :=
  skipn (length (st_trace s)) (st_trace (fst (run_op env pl o s))).

Lemma skipn_length_app {A} (l x : list A) : skipn (length l) (l ++ x) = x.
Proof. induction l; simpl; auto. Qed.

Lemma op_actions_sync env pl s : op_actions env pl OpSync s = [].
Proof.
  unfold op_actions. simpl. rewrite <- (sync_all_pure env pl s).
  rewrite <- (app_nil_r (st_trace s)) at 2. apply skipn_length_app.
Qed.

Lemma op_actions_event env pl t mon ev s :
  exists mid, op_actions env pl (OpEvent t mon ev) s = Acquire :: mid ++ [Release] /\
              blocks mid.
Proof.
  destruct (event_handler_trace env pl t mon ev s) as [mid [E [B _]]].
  exists mid. unfold op_actions. simpl. rewrite E, skipn_length_app. auto.
Qed.

(** A thread runs engine operations one after the other (a watchdog
    observer thread, the scheduler thread of [sync_all]); its actions are
    those of each operation, from whatever state it starts in. *)
Inductive thread_prog env pl : list act -> Prop :=
| tp_nil : thread_prog env pl []
| tp_op o s rest : thread_prog env pl rest ->
                   thread_prog env pl (op_actions env pl o s ++ rest).

(** The remaining actions of a thread that does not hold the lock. *)
Inductive outside : list act -> Prop :=
| out_nil : outside []
| out_seg mid rest : blocks mid -> outside rest ->
                     outside (Acquire :: mid ++ Release :: rest).

(** The remaining actions of the thread holding the lock: possibly in the
    middle of a mutating call. *)
Definition inside (p : list act) : Prop :=
  exists x rest, p = x ++ Release :: rest /\
    (blocks x \/ exists y, x = MutEnd :: y /\ blocks y) /\ outside rest.

Lemma thread_prog_outside env pl p : thread_prog env pl p -> outside p.
Proof.
  induction 1 as [| o s rest _ IH]; [constructor |].
  destruct o as [t mon ev |].
  - destruct (op_actions_event env pl t mon ev s) as [mid [-> B]].
    simpl. rewrite <- app_assoc. simpl. constructor; assumption.
  - rewrite op_actions_sync. exact IH.
Qed.

(** Threads interleave; [Acquire] waits for a free lock, [Release] frees it. *)
Record Sys := mkSys { lock : option nat; progs : list (list act) }.

Fixpoint upd {A} (l : list A) (i : nat) (x : A) : list A :=
  match l, i with
  | [], _ => []
  | _ :: t, O => x :: t
  | h :: t, S i' => h :: upd t i' x
  end.

Inductive step : Sys -> Sys -> Prop :=
| step_acquire S i rest :
    nth_error (progs S) i = Some (Acquire :: rest) -> lock S = None ->
    step S (mkSys (Some i) (upd (progs S) i rest))
| step_release S i rest :
    nth_error (progs S) i = Some (Release :: rest) -> lock S = Some i ->
    step S (mkSys None (upd (progs S) i rest))
| step_other S i a rest :
    nth_error (progs S) i = Some (a :: rest) -> a <> Acquire -> a <> Release ->
    step S (mkSys (lock S) (upd (progs S) i rest)).

Inductive reach (S0 : Sys) : Sys -> Prop :=
| reach_refl : reach S0 S0
| reach_step S1 S2 : reach S0 S1 -> step S1 S2 -> reach S0 S2.

(** Thread [i] has begun a mutating call and not finished it. *)
Definition in_flight (S : Sys) (i : nat) : Prop :=
  exists rest, nth_error (progs S) i = Some (MutEnd :: rest).

Definition Inv (S : Sys) : Prop :=
  forall i p, nth_error (progs S) i = Some p ->
    (lock S <> Some i /\ outside p) \/ (lock S = Some i /\ inside p).

Lemma nth_upd_same {A} (l : list A) i x y :
  nth_error l i = Some y -> nth_error (upd l i x) i = Some x.
Proof.
  revert i. induction l as [| h t IH]; intros [| i] H; simpl in *; try discriminate; auto.
Qed.

Lemma nth_upd_other {A} (l : list A) i j x :
  i <> j -> nth_error (upd l i x) j = nth_error l j.
Proof.
  revert i j. induction l as [| h t IH]; intros [| i] [| j] H; simpl; auto; congruence.
Qed.

Lemma nth_upd_inv {A} (l : list A) i x j p :
  nth_error (upd l i x) j = Some p ->
  (i = j /\ p = x) \/ (i <> j /\ nth_error l j = Some p).
Proof.
  intros H. destruct (Nat.eq_dec i j) as [-> | Hij].
  - left. split; [reflexivity |].
    revert j H. induction l as [| h t IH]; intros [| j] H; simpl in *; try discriminate.
    + congruence.
    + exact (IH _ H).
  - right. rewrite nth_upd_other in H; auto.
Qed.

Lemma outside_head a rest : outside (a :: rest) -> a = Acquire.
Proof. inversion 1; reflexivity. Qed.

Lemma outside_acquire rest : outside (Acquire :: rest) -> inside rest.
Proof. inversion 1; subst. exists mid, rest0. auto. Qed.

Lemma inside_release rest : inside (Release :: rest) -> outside rest.
Proof.
  intros (x & r & E & Hx & Hr).
  destruct x as [| b x']; simpl in E; [injection E as ->; exact Hr |].
  injection E as Eb _. subst b.
  destruct Hx as [Hx | (y & Ey & _)]; [inversion Hx | discriminate Ey].
Qed.

Lemma inside_step a rest :
  inside (a :: rest) -> a <> Acquire -> a <> Release -> inside rest.
Proof.
  intros (x & r & E & Hx & Hr) Ha Hr'.
  destruct x as [| b x']; simpl in E; injection E as -> ->; [congruence |].
  exists x', r. split; [reflexivity |]. split; [| exact Hr].
  destruct Hx as [Hx | (y & Ey & By)].
  - inversion Hx; subst; eauto.
  - injection Ey as -> ->. auto.
Qed.

Lemma Inv_step S S' : Inv S -> step S S' -> Inv S'.
Proof.
  intros Hinv Hstep. destruct Hstep as [S i rest Hi Hl | S i rest Hi Hl | S i a rest Hi Ha Hr];
    intros j p Hj; simpl in *; apply nth_upd_inv in Hj as [[<- ->] | [Hij Hj]].
  - right. split; [reflexivity |].
    destruct (Hinv _ _ Hi) as [[_ Ho] | [Hl' _]]; [exact (outside_acquire _ Ho) | congruence].
  - destruct (Hinv _ _ Hj) as [[_ Ho] | [Hl' _]]; [| congruence].
    left. split; [congruence | exact Ho].
  - left. split; [discriminate |].
    destruct (Hinv _ _ Hi) as [[Hl' _] | [_ Hin]]; [congruence | exact (inside_release _ Hin)].
  - destruct (Hinv _ _ Hj) as [[_ Ho] | [Hl' _]]; [| congruence].
    left. split; [discriminate | exact Ho].
  - destruct (Hinv _ _ Hi) as [[_ Ho] | [Hl' Hin]].
    + exfalso. exact (Ha (outside_head _ _ Ho)).
    + right. split; [exact Hl' | exact (inside_step _ _ Hin Ha Hr)].
  - exact (Hinv _ _ Hj).
Qed.

Lemma Inv_reach S0 S : Inv S0 -> reach S0 S -> Inv S.
Proof. intros H0. induction 1; eauto using Inv_step. Qed.

Lemma Inv_init env pl ps :
  Forall (thread_prog env pl) ps -> Inv (mkSys None ps).
Proof.
  intros Hps i p Hi. left. split; [discriminate |].
  eapply thread_prog_outside. eapply Forall_forall; [exact Hps |].
  eapply nth_error_In. exact Hi.
Qed.

(** Claim C7. [event_handler] brackets all its work between [Acquire] and
    [Release] of the global lock and always returns normally, so the lock
    is released on every path; [sync_all] takes no lock but performs no
    action at all (no mutation: every [__handle_file] it runs raises before
    its first system call). Hence, for any threads each running a sequence
    of engine operations and interleaved under the lock, a thread that is
    inside a mutating system call holds the lock, and at most one thread is
    inside one at any instant. *)
Theorem one_mutation_in_flight env pl ps S :
  Forall (thread_prog env pl) ps ->
  reach (mkSys None ps) S ->
  (forall t mon ev s, exists mid,
     op_actions env pl (OpEvent t mon ev) s = Acquire :: mid ++ [Release] /\
     blocks mid /\ snd (event_handler env pl t mon ev s) = inr tt) /\
  (forall s, op_actions env pl OpSync s = []) /\
  (forall i, in_flight S i -> lock S = Some i) /\
  (forall i j, in_flight S i -> in_flight S j -> i = j).
Proof.
  intros Hps Hreach.
  assert (HS : Inv S) by exact (Inv_reach _ _ (Inv_init env pl ps Hps) Hreach).
  assert (Hheld : forall i, in_flight S i -> lock S = Some i).
  { intros i [rest Hi]. destruct (HS _ _ Hi) as [[_ Ho] | [Hl _]]; [| exact Hl].
    discriminate (outside_head _ _ Ho). }
  split; [| split; [exact (op_actions_sync env pl) | split; [exact Hheld |]]].
  - intros t mon ev s.
    destruct (event_handler_trace env pl t mon ev s) as [mid [E [B R]]].
    exists mid. unfold op_actions. simpl. rewrite E, skipn_length_app. auto.
  - intros i j Hi Hj. rewrite (Hheld i Hi) in Hheld. specialize (Hheld j Hj).
    congruence.
Qed.

(** A stale regular file in the mirror of the deleted [/src/a/movie.mkv]. *)
Definition stale_tree : FS :=
  tree [(parse_path "/dst/a", EDir); (movie_link, EFile [Byte.x00])].

(** A watchdog thread handling the deletion (it unlinks the stale file)
    and a scheduler thread running a resync. *)
Definition lock_threads : list (list act) :=
  [op_actions demo_env (mirror false 0 "") (OpEvent Deleted "/src" "/src/a/movie.mkv")
     (mkState stale_tree []) ++ [];
   op_actions demo_env (mirror false 0 "") OpSync (mkState two_movies_tree []) ++ []].

(** The deletion thread has taken the lock and is inside its [unlink]. *)
Definition lock_midway : Sys := mkSys (Some 0%nat) [[MutEnd; Release]; []].

Lemma one_mutation_in_flight_witness :
  in_flight lock_midway 0%nat /\ lock lock_midway = Some 0%nat /\
  (forall j, in_flight lock_midway j -> j = 0%nat).
Proof.
  assert (Hr : reach (mkSys None lock_threads) lock_midway).
  { assert (E : lock_threads =
                [[Acquire; MutBegin (Unlink movie_link); MutEnd; Release]; []])
      by (vm_compute; reflexivity).
    rewrite E.
    apply (reach_step _ (mkSys (Some 0%nat) [[MutBegin (Unlink movie_link); MutEnd; Release]; []])).
    - eapply reach_step; [apply reach_refl |].
      exact (step_acquire (mkSys None [[Acquire; MutBegin (Unlink movie_link); MutEnd; Release]; []])
               0%nat [MutBegin (Unlink movie_link); MutEnd; Release] eq_refl eq_refl).
    - exact (step_other (mkSys (Some 0%nat) [[MutBegin (Unlink movie_link); MutEnd; Release]; []])
               0%nat (MutBegin (Unlink movie_link)) [MutEnd; Release] eq_refl
               ltac:(discriminate) ltac:(discriminate)). }
  destruct (one_mutation_in_flight demo_env (mirror false 0 "") lock_threads lock_midway
              ltac:(repeat constructor) Hr) as (_ & _ & Hheld & Huniq).
  assert (H0 : in_flight lock_midway 0%nat) by (exists [Release]; reflexivity).
  split; [exact H0 | split; [exact (Hheld 0%nat H0) | intros j Hj; exact (Huniq j 0%nat Hj H0)]].
Defined.

Definition poster : Path := parse_path "/src/a/poster.jpg".

Definition poster_tree : FS := tree [(poster, EFile [Byte.x07; Byte.x08])].

Definition poster_run : State :=
  fst (handle_file_body demo_env (mirror true 0 "") (VPath poster) "/src"
         (Some dst) (mkState poster_tree [])).

Lemma materialize_link_or_copy_witness :
  exists pre, Forall (fun a => creates a = false) pre /\
    st_trace poster_run =
      [] ++ pre ++ [MutBegin (CopyFile poster (parse_path "/dst/a/poster.jpg")); MutEnd] /\
    exists d,
      stat (st_fs poster_run) (parse_path "/dst/a/poster.jpg") = Some (EFile d) /\
      stat (st_fs poster_run) poster = Some (EFile d).
Proof.
  exact (materialize_link_or_copy demo_env (mirror true 0 "") poster "/src" dst
           (parse_path "a/poster.jpg") (mkState poster_tree []) poster_run
           eq_refl eq_refl).
Defined.

(* ================================================================== *)
(** * The rest of the module *)

(** ** [FileMonitorHandler]: the watchdog callbacks

    A watchdog event carries [src_path] and, for a move, [dest_path]. *)
Record FSEvent := mkFSEvent { src_path : string; dest_path : string }.

Section Handler.

Variable env : Env.
Variable pl : Plugin.

(** [on_created]: the text "创建" with the event's [src_path]. *)
Definition on_created (watch_path : string) (event : FSEvent) : M unit :=
  event_handler env pl Created watch_path (src_path event).

(** [on_moved]: the text "移动" with the event's [dest_path]. *)
Definition on_moved (watch_path : string) (event : FSEvent) : M unit :=
  event_handler env pl Moved watch_path (dest_path event).


End Handler.

(** ** Configuration values

    The values a configuration dict holds: [None], booleans, integers and
    strings. A dict is an association list with distinct keys. *)
Inductive cval :=
| CNone
| CBool (b : bool)
| CInt (z : Z)
| CStr (s : string).

Definition Dict := list (string * cval).

(** [d.get(k)]. *)
Fixpoint cfg_get (d : Dict) (k : string) : cval :=
  match d with
  | [] => CNone
  | (k', v) :: rest => if String.eqb k' k then v else cfg_get rest k
  end.

(** [d[k] = v]. *)
Fixpoint cfg_put (d : Dict) (k : string) (v : cval) : Dict :=
  match d with
  | [] => [(k, v)]
  | (k', v') :: rest =>
      if String.eqb k' k then (k, v) :: rest else (k', v') :: cfg_put rest k v
  end.

(** [bool(v)]. *)
Definition truthy (v : cval) : bool :=
  match v with
  | CNone => false
  | CBool b => b
  | CInt z => negb (z =? 0)
  | CStr s => negb (String.eqb s "")
  end.

(** [a or b]. *)
Definition py_or (a b : cval) : cval := if truthy a then a else b.

(** [v == s] for a string [s]. *)
Definition is_str (v : cval) (s : string) : bool :=
  match v with CStr x => String.eqb x s | _ => false end.

(** [str(z)] for an integer: its decimal digits, most significant first. *)
Fixpoint z_digits (fuel : nat) (n : Z) (acc : string) : string :=
  match fuel with
  | O => acc
  | S f =>
      let acc' := String (ascii_of_nat (48 + Z.to_nat (n mod 10))) acc in
      if n <? 10 then acc' else z_digits f (n / 10) acc'
  end.

Definition z_str (z : Z) : string :=
  let digits n := z_digits (S (Z.to_nat (Z.log2 n))) n "" in
  if z <? 0 then String "-" (digits (- z)) else digits z.

(** [str(v)]. *)
Definition py_str_cval (v : cval) : string :=
  match v with
  | CNone => "None"
  | CBool true => "True"
  | CBool false => "False"
  | CInt z => z_str z
  | CStr s => s
  end.

(** ** [init_plugin]

    The attributes [init_plugin] reads and writes, with the values the
    configuration gave them, on a POSIX host ([SystemUtils.is_windows()]
    is false, paths are [PosixPath]; the Windows branch of lines 121-126 is
    not modelled). *)

(** The state of an apscheduler [BackgroundScheduler]: [STATE_STOPPED] (a
    new one, or one shut down) or [STATE_RUNNING]. *)
Inductive SchedState := SchedStopped | SchedRunning.

(** [p_scheduler] is [self._scheduler] ([None] until the first one is
    made; it is never reset to [None]); [p_observers] has one entry per
    observer of [self._observer], [true] when its thread was started. *)
Record PState := mkPState {
  p_enabled : cval;
  p_onlyonce : cval;
  p_copy_files : cval;
  p_mode : cval;
  p_monitor_dirs : cval;
  p_exclude_keywords : cval;
  p_cron : cval;
  p_size : cval;
  p_dirconf : DirConf;
  p_scheduler : option SchedState;
  p_observers : list bool
}.

Definition with_dirconf (ps : PState) (dc : DirConf) : PState :=
  mkPState (p_enabled ps) (p_onlyonce ps) (p_copy_files ps) (p_mode ps)
    (p_monitor_dirs ps) (p_exclude_keywords ps) (p_cron ps) (p_size ps) dc
    (p_scheduler ps) (p_observers ps).

Definition with_onlyonce (ps : PState) (v : cval) : PState :=
  mkPState (p_enabled ps) v (p_copy_files ps) (p_mode ps)
    (p_monitor_dirs ps) (p_exclude_keywords ps) (p_cron ps) (p_size ps)
    (p_dirconf ps) (p_scheduler ps) (p_observers ps).

Definition with_services (ps : PState) (sched : option SchedState)
    (observers : list bool) : PState :=
  mkPState (p_enabled ps) (p_onlyonce ps) (p_copy_files ps) (p_mode ps)
    (p_monitor_dirs ps) (p_exclude_keywords ps) (p_cron ps) (p_size ps)
    (p_dirconf ps) sched observers.

(** Lines 91-103: [self._dirconf = {}], then, when [config] is a non-empty
    dict, the attributes are read from it. *)
Definition read_config (ps : PState) (config : Dict) : PState :=
  match config with
  | [] => with_dirconf ps []
  | _ :: _ =>
      mkPState (cfg_get config "enabled") (cfg_get config "onlyonce")
        (cfg_get config "copy_files") (cfg_get config "mode")
        (py_or (cfg_get config "monitor_dirs") (CStr ""))
        (py_or (cfg_get config "exclude_keywords") (CStr ""))
        (cfg_get config "cron")
        (py_or (cfg_get config "size") (CInt 0)) []
        (p_scheduler ps) (p_observers ps)
  end.

(** [stop_service] (lines 324-335):
<<
        self._event.set()
        if self._scheduler:
            self._scheduler.remove_all_jobs()
            self._scheduler.shutdown()
        for observer in self._observer:
            observer.stop()
            observer.join()
        self._observer = []
>>
    [shutdown()] raises [SchedulerNotRunningError] on a scheduler that is
    not running; [join()] raises [RuntimeError] on an observer whose thread
    was never started. On success the scheduler, if any, is shut down and
    the observer list is emptied. *)
Fixpoint join_observers (observers : list bool) : exn + unit :=
  match observers with
  | [] => inr tt
  | started :: rest => if started then join_observers rest else inl RuntimeError
  end.

Definition stop_service (ps : PState) : exn + PState :=
  match p_scheduler ps with
  | Some SchedStopped => inl SchedulerNotRunningError
  | sched =>
      match join_observers (p_observers ps) with
      | inl e => inl e
      | inr _ =>
          inr (with_services ps
                 (match sched with Some _ => Some SchedStopped | None => None end) [])
      end
  end.

(** The jobs put on the fresh [BackgroundScheduler]. *)
Inductive Job :=
| JobMonitor (source_dir : string)
| JobSyncAll.

(** [__update_config]: the dict handed to [self.update_config]. *)
Definition update_config (ps : PState) : Dict :=
  [("enabled", p_enabled ps); ("onlyonce", p_onlyonce ps);
   ("copy_files", p_copy_files ps); ("mode", p_mode ps);
   ("monitor_dirs", p_monitor_dirs ps);
   ("exclude_keywords", p_exclude_keywords ps); ("cron", p_cron ps);
   ("size", p_size ps)].

(** What [init_plugin] leaves: the attributes, the jobs of the new
    scheduler in the order they are added (the [sync_all] job is due 3 s
    after it starts, the [start_monitor] jobs 5 s after) and the
    configuration saved by [__update_config], if any. *)
Record InitOut := mkInitOut {
  io_plugin : PState;
  io_jobs : list Job;
  io_saved : option Dict
}.

(** Lines 174-176 start the scheduler when it has a job. *)
Definition start_if_jobs (ps : PState) (jobs : list Job) : PState :=
  with_services ps
    (Some (match jobs with [] => SchedStopped | _ => SchedRunning end))
    (p_observers ps).

(** Lines 107-176, after [self.stop_service()]: when [enabled or onlyonce],
    a new scheduler is made and the [monitor_dirs] loop ([init_dirconf])
    schedules the [start_monitor] jobs; [onlyonce] then adds the [sync_all]
    job, clears itself and saves the configuration; the scheduler is
    started when it has a job. [self._monitor_dirs.split] raises
    [AttributeError] on a value that is not a string. *)
Definition start_services (ps : PState) : exn + InitOut :=
  if truthy (p_enabled ps) || truthy (p_onlyonce ps) then
    let ps := with_services ps (Some SchedStopped) (p_observers ps) in
    match p_monitor_dirs ps with
    | CStr md =>
        let '(dc, mons) := init_dirconf (truthy (p_enabled ps))
                             (truthy (p_onlyonce ps)) md in
        let ps2 := with_dirconf ps dc in
        let jobs := map JobMonitor mons in
        if truthy (p_onlyonce ps2) then
          let ps3 := with_onlyonce ps2 (CBool false) in
          inr (mkInitOut (start_if_jobs ps3 (jobs ++ [JobSyncAll])) (jobs ++ [JobSyncAll])
                 (Some (update_config ps3)))
        else inr (mkInitOut (start_if_jobs ps2 jobs) jobs None)
    | _ => inl AttributeError
    end
  else inr (mkInitOut ps [] None).

(** [init_plugin(config)]: the attributes are read, the running services
    stopped ([self.stop_service()], line 105), then restarted. *)
Definition init_plugin (ps : PState) (config : Dict) : exn + InitOut :=
  match stop_service (read_config ps config) with
  | inl e => inl e
  | inr ps1 => start_services ps1
  end.

(** ** [start_monitor] *)

Inductive ObserverKind := PollingObserver | NativeObserver.

(** [PollingObserver] when [str(self._mode) == "compatibility"], else
    [Observer]. *)
Definition observer_kind (mode : cval) : ObserverKind :=
  if String.eqb (py_str_cval mode) "compatibility" then PollingObserver
  else NativeObserver.

(** The log line [start_monitor] writes. *)
Inductive MonitorLog :=
| LogStarted (source_dir : string)
| LogInotifyLimit (err : string)
| LogStartFailed (source_dir err : string).

(** [start_monitor(source_dir)]: the new observer is appended to
    [self._observer] before it is scheduled and started; [start_error] is
    the message of the exception [schedule] or [start] raises, if any.
    The result: the observers, the log line and the messages put on the
    user channel (source and error text). *)
Definition start_monitor (mode : cval) (source_dir : string)
    (observers : list (ObserverKind * string)) (start_error : option string)
    : list (ObserverKind * string) * MonitorLog * list (string * string) :=
  let observers := observers ++ [(observer_kind mode, source_dir)] in
  match start_error with
  | None => (observers, LogStarted source_dir, [])
  | Some err =>
      (observers,
       if PyStr.contains "inotify" err && PyStr.contains "reached" err
       then LogInotifyLimit err else LogStartFailed source_dir err,
       [(source_dir, err)])
  end.

(** ** [remote_sync] *)

(** The two titles posted: "开始同步监控目录 ..." and "监控目录同步完成！". *)
Inductive Title := TitleSyncStart | TitleSyncDone.

Record Message := mkMessage {
  msg_channel : cval;
  msg_title : Title;
  msg_userid : cval
}.

(** [remote_sync(event)]: [None] for a missing event, else its
    [event_data] (a missing [event_data] is the empty dict). The result: the
    messages posted and the run of [sync_all]. *)
Definition remote_sync (env : Env) (pl : Plugin) (event : option Dict) (s : State)
    : list Message * (State * (exn + unit)) :=
  match event with
  | None => ([], sync_all env pl s)
  | Some data =>
      if negb (match data with [] => false | _ => true end)
         || negb (is_str (cfg_get data "action") "softlink_sync")
      then ([], (s, inr tt))
      else
        let start := mkMessage (cfg_get data "channel") TitleSyncStart (cfg_get data "user") in
        match sync_all env pl s with
        | (s', inl e) => ([start], (s', inl e))
        | (s', inr _) =>
            ([start; mkMessage (cfg_get data "channel") TitleSyncDone (cfg_get data "user")],
             (s', inr tt))
        end
  end.

(* ------------------------------------------------------------------ *)
(** ** The event filters *)

Lemma getsize_pure p : Preserves eq (getsize p).
Proof. unfold getsize. prs. Qed.

#[local] Hint Resolve getsize_pure : pres.

(** [event_handler] runs its body after [Acquire], then reports an error
    of the body and releases the lock. *)
Lemma event_handler_run env pl t mon ev s s1 r :
  event_body env pl t mon ev (mkState (st_fs s) (st_trace s ++ [Acquire])) = (s1, r) ->
  event_handler env pl t mon ev s =
  (mkState (st_fs s1)
     (st_trace s1 ++ match r with inl e => [Report e] | inr _ => [] end ++ [Release]),
   inr tt).
Proof.
  intros H. unfold event_handler, bind, emit, try_except. cbn -[event_body].
  rewrite H. destruct r as [e | []]; cbn; rewrite <- ?app_assoc; reflexivity.
Qed.

(** The body of a created or moved event never changes the state: the
    [str] path makes [__handle_file] raise at [path.exists()]. *)
Lemma event_body_pure env pl t mon ev :
  is_delete t = false -> Preserves eq (event_body env pl t mon ev).
Proof.
  intros Ht. unfold event_body. prs; try discriminate.
  all: try apply handle_file_str_pure.
Qed.



(** The run of [event_handler] on a created or moved event. *)
Lemma nodelete_event_shape env pl t mon ev s :
  is_delete t = false ->
  exists rep, (rep = [] \/ exists x, rep = [Report x]) /\
    event_handler env pl t mon ev s =
    (mkState (st_fs s) (st_trace s ++ Acquire :: rep ++ [Release]), inr tt).
Proof.
  intros Ht.
  set (s0 := mkState (st_fs s) (st_trace s ++ [Acquire])).
  destruct (event_body env pl t mon ev s0) as [s1 r] eqn:E.
  pose proof (event_body_pure env pl t mon ev Ht s0) as Hp.
  rewrite E in Hp. cbn in Hp. subst s1.
  rewrite (event_handler_run _ _ _ _ _ _ _ _ E).
  exists (match r with inl e => [Report e] | inr _ => [] end). split.
  - destruct r; [right; eexists; reflexivity | left; reflexivity].
  - cbn. rewrite <- app_assoc. reflexivity.
Qed.


(* ------------------------------------------------------------------ *)
(** ** Extra properties: watchdog events *)

(** Created and moved events never change the file system: the engine
    takes and releases the lock, possibly reporting one error in between. *)
Theorem created_moved_events_keep_tree env pl watch e s :
  (exists rep, (rep = [] \/ exists x, rep = [Report x]) /\
     on_created env pl watch e s =
     (mkState (st_fs s) (st_trace s ++ Acquire :: rep ++ [Release]), inr tt)) /\
  (exists rep, (rep = [] \/ exists x, rep = [Report x]) /\
     on_moved env pl watch e s =
     (mkState (st_fs s) (st_trace s ++ Acquire :: rep ++ [Release]), inr tt)).
Proof.
  split; apply nodelete_event_shape; reflexivity.
Qed.



(** An event whose path the exclude pattern matches is dropped silently,
    whatever its kind: no mutation and no report. *)
Theorem excluded_event_dropped env pl t mon ev s hit hits :
  _exclude_keywords pl <> "" ->
  re_findall env (_exclude_keywords pl) ev = Some (hit :: hits) ->
  event_handler env pl t mon ev s =
  (mkState (st_fs s) (st_trace s ++ [Acquire; Release]), inr tt).
Proof.
  intros Hk Hre.
  set (s0 := mkState (st_fs s) (st_trace s ++ [Acquire])).
  assert (E : event_body env pl t mon ev s0 = (s0, inr tt)).
  { unfold event_body. cbv delta [bind get_fs ret] beta iota.
    destruct (negb (exists_ (st_fs s0) (parse_path ev)) && negb (is_delete t));
      [reflexivity |].
    assert (Hexcl : forall s1 : State,
      (excluded <- (if negb (String.eqb (_exclude_keywords pl) "") then
                      ms <- of_option ReError (re_findall env (_exclude_keywords pl) ev) ;;
                      ret (match ms with [] => false | _ => true end)
                    else ret false) ;;
       if excluded then ret tt else
       if is_delete t then handle_delete pl (VStr ev) mon
       else handle_file env pl (VStr ev) mon (dict_get (_dirconf pl) mon)) s1 = (s1, inr tt)).
    { intros s1. rewrite Hre. apply String.eqb_neq in Hk. rewrite Hk. reflexivity. }
    destruct (_size pl >? 0); cbv beta iota; [| apply Hexcl].
    destruct (exists_ (st_fs s0) (parse_path ev)) eqn:Hx; cbv beta iota; [| apply Hexcl].
    unfold getsize at 1. cbv delta [bind get_fs ret] beta iota.
    destruct (stat (st_fs s0) (parse_path ev)) as [[d | | l] |] eqn:Hs.
    4: (unfold exists_ in Hx; rewrite Hs in Hx; discriminate).
    all: cbv beta iota.
    all: match goal with |- context [if ?b then _ else _] => destruct b end;
      [reflexivity | apply Hexcl]. }
  rewrite (event_handler_run _ _ _ _ _ _ _ _ E). cbn. rewrite <- app_assoc. reflexivity.
Qed.

Lemma excluded_event_dropped_witness :
  event_handler demo_env (mirror false 0 "TMP") Deleted "/src" "/src/a/movie.mkv.tmp"
    (mkState stale_tree [])
  = (mkState stale_tree [Acquire; Release], inr tt).
Proof.
  apply (excluded_event_dropped demo_env (mirror false 0 "TMP") Deleted "/src"
           "/src/a/movie.mkv.tmp" (mkState stale_tree []) "TMP" []).
  - discriminate.
  - reflexivity.
Defined.





(* ------------------------------------------------------------------ *)
(** ** Extra properties: deletions *)




(* ------------------------------------------------------------------ *)
(** ** The outcome of [sync_all] *)

Lemma is_file_exists fs q : is_file fs q = true -> exists_ fs q = true.
Proof. unfold is_file, exists_. destruct (stat fs q) as [[] |]; congruence. Qed.

(** [__handle_file] on a regular file under a mapping of the table always
    raises and changes nothing; the error is a [TypeError] as soon as a
    destination is configured. *)
Lemma handle_file_on_file env pl mon t q s :
  In (mon, t) (_dirconf pl) -> is_file (st_fs s) q = true ->
  exists e, (truthy_values (_dirconf pl) <> [] -> e = TypeError) /\
            handle_file env pl (VPath q) mon t s = (s, inl e).
Proof.
  intros Hin Hf. pose proof (is_file_exists _ _ Hf) as Hx.
  unfold handle_file, bind. simpl. rewrite Hx. simpl.
  destruct (truthy_values (_dirconf pl)) as [| x xs] eqn:E.
  - rewrite (guard_false _ _ _ E). unfold handle_file_body, bind. simpl.
    destruct (relative_to q (parse_path mon)); simpl.
    + destruct t as [t |]; [exfalso; exact (truthy_values_In _ _ _ Hin E) |].
      exists AttributeError. split; [congruence | reflexivity].
    + exists ValueError. split; [congruence | reflexivity].
  - rewrite (guard_raises _ _ _ _ _ E). exists TypeError. split; reflexivity.
Qed.

(** A loop whose steps all leave the state as it is, each either going on
    or raising an error satisfying [P]. *)
Lemma forM_same {A} (P : exn -> Prop) (l : list A) (f : A -> M unit) s :
  (forall x, In x l -> f x s = (s, inr tt) \/ exists e, P e /\ f x s = (s, inl e)) ->
  (forM_ l f s = (s, inr tt) /\ forall x, In x l -> f x s = (s, inr tt)) \/
  (exists e, P e /\ forM_ l f s = (s, inl e) /\
             exists x e', In x l /\ f x s = (s, inl e')).
Proof.
  induction l as [| x xs IH]; intros H; cbn [forM_].
  - left. split; [reflexivity | intros _ []].
  - unfold bind.
    destruct (H x (or_introl eq_refl)) as [Ex | [e [He Ex]]]; rewrite Ex.
    + destruct IH as [[E1 E2] | [e [He [E1 [y [e' [Hy Ey]]]]]]].
      * intros y Hy. apply H. right. exact Hy.
      * left. split; [exact E1 |]. intros y [<- | Hy]; [exact Ex | apply E2, Hy].
      * right. exists e. split; [exact He |]. split; [exact E1 |].
        exists y, e'. split; [right; exact Hy | exact Ey].
    + right. exists e. split; [exact He |]. split; [reflexivity |].
      exists x, e. split; [left; reflexivity | exact Ex].
Qed.

(** No configured source holds a regular file in the walk of [sync_all]. *)
Definition no_file_to_sync (pl : Plugin) (fs : FS) : Prop :=
  forall mon t q, In (mon, t) (_dirconf pl) ->
    In q (rglob fs (parse_path mon)) -> is_file fs q = false.

Lemma sync_all_outcome env pl s :
  (sync_all env pl s = (s, inr tt) /\ no_file_to_sync pl (st_fs s)) \/
  (exists e, (truthy_values (_dirconf pl) <> [] -> e = TypeError) /\
             sync_all env pl s = (s, inl e) /\ ~ no_file_to_sync pl (st_fs s)).
Proof.
  set (P := fun e => truthy_values (_dirconf pl) <> [] -> e = TypeError).
  set (inner := fun mon t path =>
         fs <- get_fs ;;
         if is_file fs path then handle_file env pl (VPath path) mon t else ret tt).
  assert (Hinner : forall mon t path, In (mon, t) (_dirconf pl) ->
            (inner mon t path s = (s, inr tt) /\ is_file (st_fs s) path = false) \/
            (exists e, P e /\ inner mon t path s = (s, inl e)) /\ is_file (st_fs s) path = true).
  { intros mon t path Hin. unfold inner, bind, get_fs. cbv beta iota.
    destruct (is_file (st_fs s) path) eqn:Hf.
    - right. split; [| reflexivity].
      destruct (handle_file_on_file env pl mon t path s Hin Hf) as [e [He Ee]].
      exists e. split; [exact He | exact Ee].
    - left. split; reflexivity. }
  assert (Hmap : forall mon t, In (mon, t) (_dirconf pl) ->
     (forM_ (rglob (st_fs s) (parse_path mon)) (inner mon t) s = (s, inr tt) /\
      forall q, In q (rglob (st_fs s) (parse_path mon)) -> is_file (st_fs s) q = false) \/
     (exists e, P e /\ forM_ (rglob (st_fs s) (parse_path mon)) (inner mon t) s = (s, inl e)) /\
      exists q, In q (rglob (st_fs s) (parse_path mon)) /\ is_file (st_fs s) q = true).
  { intros mon t Hin.
    destruct (forM_same P (rglob (st_fs s) (parse_path mon)) (inner mon t) s)
      as [[E1 E2] | [e [He [E1 [q [e' [Hq Eq]]]]]]].
    - intros q _. destruct (Hinner mon t q Hin) as [[E _] | [[e [He E]] _]];
        [left; exact E | right; exists e; split; assumption].
    - left. split; [exact E1 |]. intros q Hq.
      destruct (Hinner mon t q Hin) as [[_ F] | [[e [_ E]] _]]; [exact F |].
      rewrite (E2 q Hq) in E. discriminate.
    - right. split; [exists e; split; assumption |]. exists q. split; [exact Hq |].
      destruct (Hinner mon t q Hin) as [[E _] | [_ F]]; [congruence | exact F]. }
  destruct (forM_same P (_dirconf pl)
              (fun '(mon_path, target_path) =>
                 fs <- get_fs ;;
                 forM_ (rglob fs (parse_path mon_path)) (inner mon_path target_path)) s)
    as [[E1 E2] | [e [He [E1 [[mon t] [e' [Hx Ex]]]]]]].
  - intros [mon t] Hin. unfold bind, get_fs. cbv beta iota.
    destruct (Hmap mon t Hin) as [[E _] | [[e [He E]] _]];
      [left; exact E | right; exists e; split; assumption].
  - left. split; [exact E1 |]. intros mon t q Hin Hq.
    pose proof (E2 (mon, t) Hin) as E. unfold bind, get_fs in E. cbv beta iota in E.
    destruct (Hmap mon t Hin) as [[_ F] | [[e [_ Ee]] _]]; [exact (F q Hq) |].
    rewrite Ee in E. discriminate.
  - right. exists e. split; [exact He |]. split; [exact E1 |].
    intros Hno. unfold bind, get_fs in Ex. cbv beta iota in Ex.
    destruct (Hmap mon t Hx) as [[Ee _] | [_ [q [Hq Fq]]]];
      [rewrite Ee in Ex; discriminate |].
    rewrite (Hno mon t q Hx Hq) in Fq. discriminate.
Qed.

(* ------------------------------------------------------------------ *)
(** ** Extra properties: the full resync and the remote request *)

(** [sync_all] never changes anything (no file-system call, no lock, no
    report): every [__handle_file] it reaches raises before its first
    system call. With a destination configured anywhere, it either returns
    normally or raises [TypeError]. *)
Theorem sync_all_result env pl s :
  fst (sync_all env pl s) = s /\
  (truthy_values (_dirconf pl) <> [] ->
   snd (sync_all env pl s) = inr tt \/ snd (sync_all env pl s) = inl TypeError).
Proof.
  destruct (sync_all_outcome env pl s) as [[E _] | [e [He [E _]]]]; rewrite E; cbn.
  - split; [reflexivity | auto].
  - split; [reflexivity |]. intros Ht. right. rewrite (He Ht). reflexivity.
Qed.

Lemma sync_all_result_witness :
  fst (sync_all demo_env (mirror false 0 "") (mkState small_movie_tree [])) =
    mkState small_movie_tree [] /\
  (snd (sync_all demo_env (mirror false 0 "") (mkState small_movie_tree [])) = inr tt \/
   snd (sync_all demo_env (mirror false 0 "") (mkState small_movie_tree [])) = inl TypeError).
Proof.
  destruct (sync_all_result demo_env (mirror false 0 "") (mkState small_movie_tree []))
    as [H1 H2].
  split; [exact H1 |]. apply H2. vm_compute. discriminate.
Defined.

(** [remote_sync] on a plugin event: an action other than
    ["softlink_sync"] (an empty [event_data] included) does nothing at
    all; the action ["softlink_sync"] posts the start message, runs
    [sync_all], which leaves the state as it was, and posts the completion
    message only when [sync_all] returned normally; an error of [sync_all]
    propagates. *)
Theorem remote_sync_request env pl data s :
  (is_str (cfg_get data "action") "softlink_sync" = false ->
   remote_sync env pl (Some data) s = ([], (s, inr tt))) /\
  (is_str (cfg_get data "action") "softlink_sync" = true ->
   remote_sync env pl (Some data) s =
   (mkMessage (cfg_get data "channel") TitleSyncStart (cfg_get data "user") ::
      match snd (sync_all env pl s) with
      | inr _ => [mkMessage (cfg_get data "channel") TitleSyncDone (cfg_get data "user")]
      | inl _ => []
      end,
    (s, snd (sync_all env pl s)))).
Proof.
  unfold remote_sync. split.
  - intros H. rewrite H, orb_true_r. reflexivity.
  - intros H. rewrite H.
    destruct data as [| kv rest]; [discriminate |]. cbn [negb orb].
    destruct (sync_all_outcome env pl s) as [[E _] | [e [_ [E _]]]]; rewrite E; reflexivity.
Qed.

Lemma remote_sync_request_witness :
  remote_sync demo_env (mirror false 0 "")
    (Some [("action", CStr "softlink_sync"); ("channel", CStr "wechat")])
    (mkState small_movie_tree [])
  = ([mkMessage (CStr "wechat") TitleSyncStart CNone],
     (mkState small_movie_tree [], inl TypeError)).
Proof.
  refine (eq_trans (proj2 (remote_sync_request demo_env (mirror false 0 "")
                    [("action", CStr "softlink_sync"); ("channel", CStr "wechat")]
                    (mkState small_movie_tree [])) eq_refl) _).
  vm_compute. reflexivity.
Defined.

(* ------------------------------------------------------------------ *)
(** ** Dictionaries *)


Lemma dict_set_keys d k v :
  map fst (dict_set d k v) =
  if existsb (String.eqb k) (map fst d) then map fst d else map fst d ++ [k].
Proof.
  induction d as [| [k0 v0] rest IH]; cbn; [reflexivity |].
  destruct (String.eqb k0 k) eqn:E0; cbn.
  - apply String.eqb_eq in E0. subst k0. rewrite String.eqb_refl. reflexivity.
  - rewrite IH. rewrite String.eqb_sym, E0. cbn.
    destruct (existsb (String.eqb k) (map fst rest)); reflexivity.
Qed.

Lemma cfg_get_put_other d k v k' :
  String.eqb k k' = false -> cfg_get (cfg_put d k v) k' = cfg_get d k'.
Proof.
  intros H. induction d as [| [k0 v0] rest IH]; cbn; [rewrite H; reflexivity |].
  destruct (String.eqb k0 k) eqn:E0; cbn.
  - apply String.eqb_eq in E0. subst k0. rewrite H. reflexivity.
  - rewrite IH. reflexivity.
Qed.

(* ------------------------------------------------------------------ *)
(** ** The table and the jobs of [init_plugin] *)

Definition table_ok (acc : DirConf * list string) : Prop :=
  NoDup (map fst (fst acc)) /\ forall j, In j (snd acc) -> In j (map fst (fst acc)).

Lemma existsb_eqb_In k l : existsb (String.eqb k) l = true <-> In k l.
Proof.
  rewrite existsb_exists. split.
  - intros [x [Hx E]]. apply String.eqb_eq in E. subst. exact Hx.
  - intros H. exists k. split; [exact H | apply String.eqb_refl].
Qed.

Lemma dict_set_ok dc jobs k v :
  table_ok (dc, jobs) -> table_ok (dict_set dc k v, jobs) /\ In k (map fst (dict_set dc k v)).
Proof.
  unfold table_ok. intros [Hn Hj]. cbn in *. rewrite dict_set_keys.
  destruct (existsb (String.eqb k) (map fst dc)) eqn:E.
  - apply existsb_eqb_In in E. repeat split; auto.
  - assert (Hk : ~ In k (map fst dc))
      by (intros H; apply existsb_eqb_In in H; congruence).
    repeat split.
    + apply NoDup_app; [exact Hn | repeat constructor; auto |].
      intros x Hx [<- | []]. contradiction.
    + intros j H. apply in_or_app. left. auto.
    + apply in_or_app. right. left. reflexivity.
Qed.

Lemma init_line_ok enabled acc line :
  table_ok acc -> table_ok (init_line enabled acc line) /\
  (enabled = false -> snd (init_line enabled acc line) = snd acc).
Proof.
  destruct acc as [dc jobs]. intros Hok. unfold init_line.
  destruct (String.eqb line ""); [split; auto |].
  destruct (match PyStr.split colon line with
            | p0 :: p1 :: _ => (p0, Some (parse_path p1))
            | _ => (line, None)
            end) as [mon tgt].
  destruct (dict_set_ok dc jobs mon tgt Hok) as [[Hn Hj] Hk].
  destruct enabled; [| split; [split; assumption | reflexivity]].
  split; [| discriminate].
  assert (Hadd : table_ok (dict_set dc mon tgt, jobs ++ [mon])).
  { split; [exact Hn |]. intros j Hin. apply in_app_or in Hin.
    destruct Hin as [Hin | [<- | []]]; [apply Hj, Hin | exact Hk]. }
  destruct tgt as [t |]; [destruct (is_relative_to t (parse_path mon)) |];
    first [exact Hadd | split; assumption].
Qed.

Lemma init_dirconf_ok enabled onlyonce md :
  table_ok (init_dirconf enabled onlyonce md) /\
  (enabled = false -> snd (init_dirconf enabled onlyonce md) = []).
Proof.
  unfold init_dirconf. destruct (enabled || onlyonce);
    [| split; [split; [constructor | intros _ []] | reflexivity]].
  assert (H : forall lines acc, table_ok acc ->
            table_ok (fold_left (init_line enabled) lines acc) /\
            (enabled = false -> snd (fold_left (init_line enabled) lines acc) = snd acc)).
  { induction lines as [| l ls IH]; intros acc Hok; cbn; [split; auto |].
    destruct (init_line_ok enabled acc l Hok) as [Hok' Hs].
    destruct (IH _ Hok') as [H1 H2]. split; [exact H1 |].
    intros He. rewrite (H2 He). exact (Hs He). }
  apply H. split; [constructor | intros _ []].
Qed.

Lemma py_or_idem a b : py_or (py_or a b) b = py_or a b.
Proof. unfold py_or. destruct (truthy a) eqn:E; [rewrite E | destruct (truthy b)]; reflexivity. Qed.

Lemma py_or_str s : py_or (CStr s) (CStr "") = CStr s.
Proof.
  unfold py_or. cbn. destruct (String.eqb s "") eqn:E; [| reflexivity].
  apply String.eqb_eq in E. subst. reflexivity.
Qed.

Lemma read_config_dirconf ps c : p_dirconf (read_config ps c) = [].
Proof. destruct c; reflexivity. Qed.

(* ------------------------------------------------------------------ *)
(** ** [str()] of a configuration value *)

Lemma digit_not_c n : ascii_of_nat (48 + Z.to_nat (n mod 10)) <> "c"%char.
Proof.
  intros H. apply (f_equal nat_of_ascii) in H.
  pose proof (Z.mod_pos_bound n 10 ltac:(lia)) as Hb.
  rewrite nat_ascii_embedding in H by lia. cbn in H. lia.
Qed.

Lemma z_digits_head fuel n acc :
  (forall c r, acc = String c r -> c <> "c"%char) ->
  forall c r, z_digits fuel n acc = String c r -> c <> "c"%char.
Proof.
  revert n acc. induction fuel as [| f IH]; intros n acc Hacc; cbn; [exact Hacc |].
  assert (Hd : forall c r, String (ascii_of_nat (48 + Z.to_nat (n mod 10))) acc = String c r ->
                           c <> "c"%char)
    by (intros c r [= <- _]; apply digit_not_c).
  destruct (n <? 10); [exact Hd | apply IH, Hd].
Qed.

Lemma not_compatibility s :
  (forall c r, s = String c r -> c <> "c"%char) -> String.eqb s "compatibility" = false.
Proof.
  intros H. destruct s as [| c r]; [reflexivity |]. cbn.
  destruct (Ascii.eqb c "c") eqn:E; [| reflexivity].
  apply Ascii.eqb_eq in E. exfalso. exact (H c r eq_refl E).
Qed.

Lemma observer_kind_is_str v :
  observer_kind v = if is_str v "compatibility" then PollingObserver else NativeObserver.
Proof.
  unfold observer_kind. destruct v as [| [] | z | s]; try reflexivity.
  cbn [py_str_cval is_str]. unfold z_str.
  destruct (z <? 0); [reflexivity |].
  rewrite not_compatibility; [reflexivity |].
  apply z_digits_head. discriminate.
Qed.

(** A successful [stop_service] only shuts the services down. *)
Lemma stop_service_inv ps ps1 :
  stop_service ps = inr ps1 -> exists sched, ps1 = with_services ps sched [].
Proof.
  unfold stop_service.
  destruct (p_scheduler ps) as [[] |]; [discriminate | |];
    (destruct (join_observers (p_observers ps)); [discriminate |]);
    intros [= <-]; eexists; reflexivity.
Qed.

Lemma stop_service_result ps ps1 :
  stop_service ps = inr ps1 ->
  ps1 = with_services ps
          (match p_scheduler ps with Some _ => Some SchedStopped | None => None end) [].
Proof.
  unfold stop_service.
  destruct (p_scheduler ps) as [[] |]; [discriminate | |];
    (destruct (join_observers (p_observers ps)); [discriminate |]);
    intros [= <-]; reflexivity.
Qed.

Lemma stop_service_ok ps :
  p_scheduler ps <> Some SchedStopped -> join_observers (p_observers ps) = inr tt ->
  exists sched, stop_service ps = inr (with_services ps sched []).
Proof.
  intros Hs Ho. unfold stop_service.
  destruct (p_scheduler ps) as [[] |]; [congruence | |]; rewrite Ho; eexists; reflexivity.
Qed.

Lemma read_config_services ps c :
  p_scheduler (read_config ps c) = p_scheduler ps /\
  p_observers (read_config ps c) = p_observers ps.
Proof. destruct c; split; reflexivity. Qed.

Lemma init_plugin_stop_ok ps c :
  p_scheduler ps <> Some SchedStopped -> join_observers (p_observers ps) = inr tt ->
  exists sched, init_plugin ps c = start_services (with_services (read_config ps c) sched []).
Proof.
  intros Hs Ho. destruct (read_config_services ps c) as [E1 E2].
  rewrite <- E1 in Hs. rewrite <- E2 in Ho.
  destruct (stop_service_ok _ Hs Ho) as [sched E].
  exists sched. unfold init_plugin. rewrite E. reflexivity.
Qed.

(* ------------------------------------------------------------------ *)
(** ** Extra properties: configuration *)


(** After [init_plugin], the table has distinct sources, every
    [start_monitor] job watches a source of the table, and no such job
    exists unless [enabled] is set. *)
Theorem init_plugin_table_jobs ps c out :
  init_plugin ps c = inr out ->
  NoDup (map fst (p_dirconf (io_plugin out))) /\
  (forall src, In (JobMonitor src) (io_jobs out) ->
               In src (map fst (p_dirconf (io_plugin out)))) /\
  (truthy (p_enabled (io_plugin out)) = false ->
   forall src, ~ In (JobMonitor src) (io_jobs out)).
Proof.
  unfold init_plugin.
  destruct (stop_service (read_config ps c)) as [e | ps0] eqn:Es; [discriminate |].
  apply stop_service_inv in Es as [sched ->].
  unfold start_services.
  cbn [with_services p_enabled p_onlyonce p_monitor_dirs p_observers].
  set (ps1 := read_config ps c).
  destruct (truthy (p_enabled ps1) || truthy (p_onlyonce ps1)).
  - destruct (p_monitor_dirs ps1) as [| | | md]; try discriminate.
    pose proof (init_dirconf_ok (truthy (p_enabled ps1)) (truthy (p_onlyonce ps1)) md)
      as [[Hn Hj] Hen].
    destruct (init_dirconf (truthy (p_enabled ps1)) (truthy (p_onlyonce ps1)) md)
      as [dc mons].
    cbn in Hn, Hj, Hen.
    assert (Hin : forall src, In (JobMonitor src) (map JobMonitor mons) -> In src mons).
    { intros src H. apply in_map_iff in H. destruct H as [x [[= ->] Hx]]. exact Hx. }
    cbn [with_dirconf with_services p_onlyonce].
    destruct (truthy (p_onlyonce ps1)); intros [= <-]; cbn.
    + repeat split; [exact Hn | |].
      * intros src H. apply in_app_or in H.
        destruct H as [H | [H | []]]; [apply Hj, Hin, H | discriminate].
      * intros He src H. apply in_app_or in H.
        destruct H as [H | [H | []]]; [| discriminate].
        apply Hin in H. rewrite (Hen He) in H. exact H.
    + repeat split; [exact Hn | |].
      * intros src H. apply Hj, Hin, H.
      * intros He src H. apply Hin in H. rewrite (Hen He) in H. exact H.
  - intros [= <-]. cbn. unfold ps1. rewrite read_config_dirconf.
    repeat split; [constructor | intros _ [] | intros _ _ []].
Qed.

Definition demo_config : Dict :=
  [("enabled", CBool true); ("onlyonce", CBool true); ("copy_files", CBool false);
   ("mode", CStr "fast"); ("monitor_dirs", CStr "/src:/dst
/src:/src/mirror
/other"); ("exclude_keywords", CStr ""); ("cron", CStr "0 3 * * *");
   ("size", CInt 0)].

(** The class attributes, before any [init_plugin]. *)
Definition default_pstate : PState :=
  mkPState CNone CNone CNone (CStr "compatibility") (CStr "") (CStr "") CNone (CInt 0) []
    None [].

Lemma init_plugin_table_jobs_witness :
  NoDup (map fst [("/src", Some (parse_path "/src/mirror")); ("/other", None)]) /\
  (forall src, In (JobMonitor src) [JobMonitor "/src"; JobMonitor "/other"; JobSyncAll] ->
               In src (map fst [("/src", Some (parse_path "/src/mirror")); ("/other", None)])).
Proof.
  destruct (init_plugin_table_jobs default_pstate demo_config
              (mkInitOut
                 (mkPState (CBool true) (CBool false) (CBool false) (CStr "fast")
                    (CStr "/src:/dst
/src:/src/mirror
/other") (CStr "") (CStr "0 3 * * *") (CInt 0)
                    [("/src", Some (parse_path "/src/mirror")); ("/other", None)]
                    (Some SchedRunning) [])
                 [JobMonitor "/src"; JobMonitor "/other"; JobSyncAll]
                 (Some (update_config
                    (mkPState (CBool true) (CBool false) (CBool false) (CStr "fast")
                       (CStr "/src:/dst
/src:/src/mirror
/other") (CStr "") (CStr "0 3 * * *") (CInt 0)
                       [("/src", Some (parse_path "/src/mirror")); ("/other", None)]
                       (Some SchedStopped) []))))
              eq_refl) as [Hn [Hj _]].
  split; [exact Hn | exact Hj].
Defined.

Lemma read_config_cons ps c :
  c <> [] ->
  read_config ps c =
  mkPState (cfg_get c "enabled") (cfg_get c "onlyonce")
    (cfg_get c "copy_files") (cfg_get c "mode")
    (py_or (cfg_get c "monitor_dirs") (CStr ""))
    (py_or (cfg_get c "exclude_keywords") (CStr ""))
    (cfg_get c "cron") (py_or (cfg_get c "size") (CInt 0)) []
    (p_scheduler ps) (p_observers ps).
Proof. destruct c; [congruence | reflexivity]. Qed.

(** With [onlyonce] set, [init_plugin] adds the one-off [sync_all] job
    last (it is due 3 s after the scheduler starts, the monitors 5 s after)
    and saves a configuration with [onlyonce] cleared. Loading that saved
    configuration again, from a state where [stop_service] succeeds (no
    scheduler or a running one, every observer started), schedules the
    same monitors without the one-off job, saves nothing, and leaves the
    same configured attributes and the same table (emptied when [enabled]
    is not set). *)
Theorem init_plugin_saved_config_reload ps ps' c out c' :
  c <> [] -> init_plugin ps c = inr out -> io_saved out = Some c' ->
  p_scheduler ps' <> Some SchedStopped -> join_observers (p_observers ps') = inr tt ->
  exists jobs out', io_jobs out = jobs ++ [JobSyncAll] /\
    init_plugin ps' c' = inr out' /\
    io_jobs out' = jobs /\ io_saved out' = None /\
    update_config (io_plugin out') = c' /\
    p_dirconf (io_plugin out') =
      (if truthy (p_enabled (io_plugin out)) then p_dirconf (io_plugin out) else []).
Proof.
  intros Hc H1 Hs Hsch Hobs.
  destruct (init_plugin_stop_ok ps' c' Hsch Hobs) as [sched' ->].
  unfold init_plugin in H1.
  destruct (stop_service (read_config ps c)) as [e | ps0] eqn:Es; [discriminate |].
  apply stop_service_inv in Es as [sched ->].
  rewrite (read_config_cons ps c Hc) in H1.
  remember (cfg_get c "enabled") as en eqn:Een.
  remember (cfg_get c "onlyonce") as oo eqn:Eoo.
  remember (cfg_get c "copy_files") as cf eqn:Ecf.
  remember (cfg_get c "mode") as mo eqn:Emo.
  remember (cfg_get c "monitor_dirs") as md0 eqn:Emd.
  remember (cfg_get c "exclude_keywords") as ex eqn:Eex.
  remember (cfg_get c "cron") as cr eqn:Ecr.
  remember (cfg_get c "size") as sz eqn:Esz.
  clear Een Eoo Ecf Emo Emd Eex Ecr Esz.
  unfold start_services in H1.
  cbn [with_services p_enabled p_onlyonce p_monitor_dirs p_observers] in H1.
  destruct (truthy en || truthy oo) eqn:Hgo; [| injection H1 as <-; discriminate].
  destruct (py_or md0 (CStr "")) as [| | | md] eqn:Hmd; try discriminate H1.
  destruct (init_dirconf (truthy en) (truthy oo) md) as [dc mons] eqn:Hi.
  cbn [with_dirconf with_services p_onlyonce] in H1.
  destruct (truthy oo) eqn:Hoo; [| injection H1 as <-; discriminate].
  injection H1 as <-. cbn [io_saved] in Hs. injection Hs as <-.
  exists (map JobMonitor mons).
  unfold update_config, with_onlyonce, with_dirconf, with_services.
  cbn [io_plugin io_jobs io_saved p_enabled p_onlyonce p_copy_files p_mode
       p_monitor_dirs p_exclude_keywords p_cron p_size p_dirconf].
  rewrite read_config_cons by discriminate.
  cbn [cfg_get String.eqb Ascii.eqb Bool.eqb andb].
  rewrite !py_or_idem, py_or_str.
  unfold start_services.
  cbn [p_enabled p_onlyonce p_monitor_dirs truthy with_dirconf with_services
       p_copy_files p_mode p_exclude_keywords p_cron p_size p_dirconf p_observers].
  rewrite orb_false_r.
  destruct (truthy en) eqn:Hen.
  - change (init_dirconf true false md) with (init_dirconf true true md). rewrite Hi.
    eexists. split; [reflexivity | split; [reflexivity |]]. cbn. rewrite Hen. auto.
  - pose proof (proj2 (init_dirconf_ok false true md) eq_refl) as Hm.
    rewrite Hi in Hm. cbn in Hm. subst mons.
    eexists. split; [reflexivity | split; [reflexivity |]]. cbn. rewrite Hen. auto.
Qed.

(** The first run on [demo_config] and the configuration it saves. *)
Definition demo_out : InitOut :=
  match init_plugin default_pstate demo_config with
  | inr o => o
  | inl _ => mkInitOut default_pstate [] None
  end.

Definition demo_saved : Dict :=
  match io_saved demo_out with Some d => d | None => [] end.

Lemma init_plugin_saved_config_reload_witness :
  exists jobs out', io_jobs demo_out = jobs ++ [JobSyncAll] /\
    init_plugin (io_plugin demo_out) demo_saved = inr out' /\
    io_jobs out' = jobs /\ io_saved out' = None /\
    update_config (io_plugin out') = demo_saved /\
    p_dirconf (io_plugin out') =
      (if truthy (p_enabled (io_plugin demo_out)) then p_dirconf (io_plugin demo_out) else []).
Proof.
  exact (init_plugin_saved_config_reload default_pstate (io_plugin demo_out) demo_config
           demo_out demo_saved ltac:(discriminate) eq_refl eq_refl
           ltac:(vm_compute; discriminate) ltac:(vm_compute; reflexivity)).
Defined.

Lemma cfg_get_put_same d k v : cfg_get (cfg_put d k v) k = v.
Proof.
  induction d as [| [k0 v0] rest IH]; cbn; [rewrite String.eqb_refl; reflexivity |].
  destruct (String.eqb k0 k) eqn:E; cbn; [rewrite String.eqb_refl; reflexivity |].
  rewrite E. exact IH.
Qed.

Lemma cfg_put_nonempty d k v : cfg_put d k v <> [].
Proof. destruct d as [| [k0 v0] rest]; cbn; [| destruct (String.eqb k0 k)]; discriminate. Qed.

Lemma start_services_mode ps out :
  start_services ps = inr out -> p_mode (io_plugin out) = p_mode ps.
Proof.
  unfold start_services.
  destruct (truthy (p_enabled ps) || truthy (p_onlyonce ps)); [| intros [= <-]; reflexivity].
  cbn [with_services p_monitor_dirs p_onlyonce].
  destruct (p_monitor_dirs ps); try discriminate.
  destruct (init_dirconf _ _ _). cbn [with_dirconf with_services p_onlyonce].
  destruct (truthy (p_onlyonce ps)); intros [= <-]; reflexivity.
Qed.

Lemma init_plugin_mode ps c out :
  init_plugin ps c = inr out -> p_mode (io_plugin out) = p_mode (read_config ps c).
Proof.
  unfold init_plugin.
  destruct (stop_service (read_config ps c)) as [e | ps0] eqn:Es; [discriminate |].
  apply stop_service_inv in Es as [sched ->]. intros H. apply start_services_mode in H.
  exact H.
Qed.

(** The [cron] entry of the configuration is stored but schedules
    nothing: changing it changes neither the jobs nor the table nor the
    outcome of [init_plugin]. *)
Theorem init_plugin_ignores_cron ps c v :
  c <> [] ->
  match init_plugin ps (cfg_put c "cron" v), init_plugin ps c with
  | inr o1, inr o2 =>
      io_jobs o1 = io_jobs o2 /\
      p_dirconf (io_plugin o1) = p_dirconf (io_plugin o2) /\
      p_cron (io_plugin o1) = v
  | inl e1, inl e2 => e1 = e2
  | _, _ => False
  end.
Proof.
  intros Hc. unfold init_plugin.
  rewrite (read_config_cons ps c Hc), (read_config_cons ps _ (cfg_put_nonempty c "cron" v)).
  rewrite !cfg_get_put_other by reflexivity. rewrite cfg_get_put_same.
  unfold stop_service. cbn [p_scheduler p_observers].
  destruct (p_scheduler ps) as [[] |]; [reflexivity | |];
    (destruct (join_observers (p_observers ps)); [reflexivity |]);
    unfold start_services; cbn [with_services p_enabled p_onlyonce p_monitor_dirs p_observers];
    (destruct (truthy (cfg_get c "enabled") || truthy (cfg_get c "onlyonce"));
     [| cbn; auto]);
    (destruct (py_or (cfg_get c "monitor_dirs") (CStr "")); try reflexivity);
    destruct (init_dirconf _ _ _); cbn;
    destruct (truthy (cfg_get c "onlyonce")); cbn; auto.
Qed.

Lemma init_plugin_ignores_cron_witness :
  match init_plugin default_pstate (cfg_put demo_config "cron" (CStr "*/5 * * * *")),
        init_plugin default_pstate demo_config with
  | inr o1, inr o2 =>
      io_jobs o1 = io_jobs o2 /\
      p_dirconf (io_plugin o1) = p_dirconf (io_plugin o2) /\
      p_cron (io_plugin o1) = CStr "*/5 * * * *"
  | inl e1, inl e2 => e1 = e2
  | _, _ => False
  end.
Proof.
  exact (init_plugin_ignores_cron default_pstate demo_config (CStr "*/5 * * * *")
           ltac:(discriminate)).
Defined.

(** The observer each [start_monitor] job appends is a
    [PollingObserver] exactly when the configuration's [mode] is the string
    ["compatibility"]: a missing mode, a boolean or an integer gives the
    native [Observer]. The observer is kept whether it starts or not. *)
Theorem configured_mode_selects_observer ps c out src observers start_error :
  c <> [] -> init_plugin ps c = inr out ->
  fst (fst (start_monitor (p_mode (io_plugin out)) src observers start_error)) =
  observers ++
    [(if is_str (cfg_get c "mode") "compatibility" then PollingObserver
      else NativeObserver, src)].
Proof.
  intros Hc Hi. apply init_plugin_mode in Hi.
  rewrite (read_config_cons ps c Hc) in Hi. cbn [p_mode] in Hi.
  unfold start_monitor. rewrite Hi, observer_kind_is_str.
  destruct start_error; reflexivity.
Qed.

Lemma configured_mode_selects_observer_witness :
  fst (fst (start_monitor (CInt 12) "/src" [] (Some "inotify watch limit reached"))) =
  [(NativeObserver, "/src")].
Proof.
  pose (c := [("enabled", CBool true); ("mode", CInt 12); ("monitor_dirs", CStr "/src")]).
  exact (configured_mode_selects_observer default_pstate c
           (mkInitOut
              (mkPState (CBool true) CNone CNone (CInt 12) (CStr "/src") (CStr "") CNone
                 (CInt 0) [("/src", None)] (Some SchedRunning) [])
              [JobMonitor "/src"] None)
           "/src" [] (Some "inotify watch limit reached")
           ltac:(discriminate) eq_refl).
Defined.

Lemma join_observers_cases obs :
  (join_observers obs = inl RuntimeError /\ In false obs) \/
  (join_observers obs = inr tt /\ ~ In false obs).
Proof.
  induction obs as [| [] rest IH]; cbn.
  - right. auto.
  - destruct IH as [[-> H] | [-> H]]; [left | right]; intuition congruence.
  - left. auto.
Qed.

Lemma start_services_error_iff ps c sched e :
  c <> [] ->
  start_services (with_services (read_config ps c) sched []) = inl e <->
  e = AttributeError /\
  (truthy (cfg_get c "enabled") || truthy (cfg_get c "onlyonce")) = true /\
  truthy (cfg_get c "monitor_dirs") = true /\
  (forall s, cfg_get c "monitor_dirs" <> CStr s).
Proof.
  intros Hc. rewrite (read_config_cons ps c Hc).
  unfold start_services.
  cbn [with_services p_enabled p_onlyonce p_monitor_dirs p_observers].
  destruct (truthy (cfg_get c "enabled") || truthy (cfg_get c "onlyonce")) eqn:G;
    [| split; [intros H; discriminate H | intros (_ & H & _); discriminate H]].
  destruct (cfg_get c "monitor_dirs") as [| b | z | s] eqn:Emd; unfold py_or;
    cbn [truthy]; [| destruct b | destruct (z =? 0) | destruct (String.eqb s "")];
    cbn [negb];
    first
      [ split; [intros [= <-]; repeat split; intros; discriminate
               | intros [-> _]; reflexivity]
      | try destruct (init_dirconf _ _ _);
        cbn [with_dirconf with_services p_onlyonce];
        try destruct (truthy (cfg_get c "onlyonce"));
        (split; [intros H; discriminate H
                | intros (_ & _ & H1 & H2);
                  first [discriminate H1 | exfalso; exact (H2 _ eq_refl)]]) ].
Qed.

(** On a POSIX host, [init_plugin] raises exactly in these cases:
    [SchedulerNotRunningError] when the scheduler of an earlier run is not
    running ([stop_service] shuts it down again); else [RuntimeError] when
    an observer of [self._observer] was never started ([join] on it);
    else [AttributeError] when the plugin is switched on ([enabled or
    onlyonce]) while [monitor_dirs] is a truthy value that is not a string
    (a falsy one is read as [""]). *)
Theorem init_plugin_error_iff ps c e :
  c <> [] ->
  init_plugin ps c = inl e <->
  (p_scheduler ps = Some SchedStopped /\ e = SchedulerNotRunningError) \/
  (p_scheduler ps <> Some SchedStopped /\ In false (p_observers ps) /\ e = RuntimeError) \/
  (p_scheduler ps <> Some SchedStopped /\ ~ In false (p_observers ps) /\
   e = AttributeError /\
   (truthy (cfg_get c "enabled") || truthy (cfg_get c "onlyonce")) = true /\
   truthy (cfg_get c "monitor_dirs") = true /\
   (forall s, cfg_get c "monitor_dirs" <> CStr s)).
Proof.
  intros Hc. unfold init_plugin, stop_service.
  destruct (read_config_services ps c) as [E1 E2]. rewrite E1, E2.
  destruct (p_scheduler ps) as [[] |] eqn:Es.
  - split; [intros [= <-]; left; auto |].
    intros [[_ ->] | [[H _] | [H _]]]; [reflexivity | congruence | congruence].
  - assert (Hne : Some SchedRunning <> Some SchedStopped) by discriminate.
    destruct (join_observers_cases (p_observers ps)) as [[-> Hin] | [-> Hnin]].
    + split; [intros [= <-]; right; left; auto |].
      intros [[H _] | [(_ & _ & ->) | (_ & H & _)]]; [discriminate | reflexivity | contradiction].
    + cbv beta iota. rewrite (start_services_error_iff ps c _ e Hc).
      split; [intros H; right; right; tauto |].
      intros [[H _] | [(_ & H & _) | (_ & _ & H)]]; [discriminate | contradiction | exact H].
  - assert (Hne : @None SchedState <> Some SchedStopped) by discriminate.
    destruct (join_observers_cases (p_observers ps)) as [[-> Hin] | [-> Hnin]].
    + split; [intros [= <-]; right; left; auto |].
      intros [[H _] | [(_ & _ & ->) | (_ & H & _)]]; [discriminate | reflexivity | contradiction].
    + cbv beta iota. rewrite (start_services_error_iff ps c _ e Hc).
      split; [intros H; right; right; tauto |].
      intros [[H _] | [(_ & H & _) | (_ & _ & H)]]; [discriminate | contradiction | exact H].
Qed.

Lemma init_plugin_error_iff_witness :
  init_plugin default_pstate [("enabled", CBool true); ("monitor_dirs", CInt 7)]
  = inl AttributeError /\
  init_plugin (with_services default_pstate (Some SchedStopped) [])
    [("enabled", CBool true); ("monitor_dirs", CStr "/src")]
  = inl SchedulerNotRunningError.
Proof.
  split.
  - apply (proj2 (init_plugin_error_iff default_pstate
                    [("enabled", CBool true); ("monitor_dirs", CInt 7)] AttributeError
                    ltac:(discriminate))).
    right. right. split; [vm_compute; discriminate |]. split; [vm_compute; intros [] |].
    repeat split; intros; discriminate.
  - apply (proj2 (init_plugin_error_iff (with_services default_pstate (Some SchedStopped) [])
                    [("enabled", CBool true); ("monitor_dirs", CStr "/src")]
                    SchedulerNotRunningError ltac:(discriminate))).
    left. split; reflexivity.
Defined.

(** On a POSIX host, a successful [init_plugin] that ends with no job on
    its scheduler, while it either made a new scheduler (the plugin is
    switched on, but no monitor is scheduled and [onlyonce] is off) or
    shut down the scheduler of an earlier run (the plugin is switched off),
    leaves a scheduler that is not running: the next [init_plugin],
    whatever its configuration, raises [SchedulerNotRunningError] in
    [stop_service]. *)
Theorem init_plugin_idle_scheduler ps c out c' :
  init_plugin ps c = inr out ->
  io_jobs out = [] ->
  ((truthy (p_enabled (read_config ps c)) || truthy (p_onlyonce (read_config ps c))) = true
   \/ p_scheduler ps <> None) ->
  p_scheduler (io_plugin out) = Some SchedStopped /\
  init_plugin (io_plugin out) c' = inl SchedulerNotRunningError.
Proof.
  intros H Hj Hcase.
  assert (Hs : p_scheduler (io_plugin out) = Some SchedStopped).
  { unfold init_plugin in H.
    destruct (stop_service (read_config ps c)) as [e | ps0] eqn:Es; [discriminate |].
    apply stop_service_result in Es. subst ps0.
    rewrite (proj1 (read_config_services ps c)) in H.
    unfold start_services in H.
    cbn [with_services p_enabled p_onlyonce p_monitor_dirs p_observers] in H.
    destruct (truthy (p_enabled (read_config ps c)) || truthy (p_onlyonce (read_config ps c)))
      eqn:G.
    - destruct (p_monitor_dirs (read_config ps c)); try discriminate.
      destruct (init_dirconf _ _ _) as [dc mons].
      cbn [with_dirconf with_services p_onlyonce] in H.
      destruct (truthy (p_onlyonce (read_config ps c))); injection H as <-;
        cbn in Hj |- *.
      + destruct mons; discriminate.
      + destruct mons; [reflexivity | discriminate].
    - injection H as <-. cbn.
      destruct Hcase as [Hc | Hc]; [discriminate |].
      destruct (p_scheduler ps); [reflexivity | congruence]. }
  split; [exact Hs |].
  unfold init_plugin, stop_service.
  rewrite (proj1 (read_config_services _ c')), Hs. reflexivity.
Qed.

(** A run switched on with no monitor, and a run that switches off the
    plugin of [demo_out]. *)
Definition idle_config : Dict := [("enabled", CBool true); ("monitor_dirs", CStr "")].

Definition idle_out : InitOut :=
  match init_plugin default_pstate idle_config with
  | inr o => o
  | inl _ => mkInitOut default_pstate [] None
  end.

Definition off_out : InitOut :=
  match init_plugin (io_plugin demo_out) [("enabled", CBool false)] with
  | inr o => o
  | inl _ => mkInitOut default_pstate [] None
  end.

Lemma init_plugin_idle_scheduler_witness :
  init_plugin (io_plugin idle_out) demo_config = inl SchedulerNotRunningError /\
  init_plugin (io_plugin off_out) demo_config = inl SchedulerNotRunningError.
Proof.
  split.
  - refine (proj2 (init_plugin_idle_scheduler default_pstate idle_config idle_out
                     demo_config _ _ _)).
    + vm_compute. reflexivity.
    + vm_compute. reflexivity.
    + left. vm_compute. reflexivity.
  - refine (proj2 (init_plugin_idle_scheduler (io_plugin demo_out) [("enabled", CBool false)]
                     off_out demo_config _ _ _)).
    + vm_compute. reflexivity.
    + vm_compute. reflexivity.
    + right. vm_compute. discriminate.
Defined.
